(** * graph/top_sort.go: depth-first topological sort over a NodeProvider

    A shallow embedding of [TopSort] and [dfsVisit], followed by the
    properties of the sort: ordering, coverage, cycle reporting, failure
    propagation, determinism and termination.

    Modelling decisions.
    - A vertex ([interface{}]) is a value of an arbitrary type [V]; an
      identifier (the result of [ID], used as a map key) is a value of a
      type [I] with decidable equality that can key a finite map. Keys on
      which Go's [==] is not an equivalence (NaN) or panics (slices, maps)
      are outside the model.
    - [traversalState] is a [gmap I tState]; reading an absent key gives the
      zero value [stateNew], which is the total lookup [!!!].
    - [error] is a sum of the three shapes of value that [TopSort] can
      return: the [errors.New] string, a [*CycleError], or any other error
      value of the caller's own type [E]. The provider's [Child] may return
      any [error], also one of the first two shapes.
    - [dfsVisit] is recursive on the graph, not on its arguments, so the
      model takes a bound [fuel] on the nesting depth of the calls; [None]
      means the bound was reached. The child loop runs over the indices
      [0 .. ChildCount(node)-1].
    - The shared map and the shared result slice are fields of [State],
      threaded through the calls; [path] is passed by value. ([append] may
      reuse the backing array of [path], but only beyond the length every
      live caller sees, so the by-value reading is exact.)
    - [log] is a ghost field: the provider methods invoked and the visits
      entered, in order. It does not influence the computation.
    - What one call shares with the next is said on a second embedding of
      the same code, [TopSortIn], where the map and the slice are objects
      that [make] allocates in the store of the process. *)

From stdpp Require Import gmap strings list fin_sets relations.

Local Open Scope Z_scope.

(** ** Data *)

(** [type tState int] with the constants [stateNew], [stateOpen],
    [stateClosed] (iota 0, 1, 2). *)
Inductive tState : Set :=
  | stateNew
  | stateOpen
  | stateClosed.

#[global] Instance tState_eq_dec : EqDecision tState.
Proof. solve_decision. Defined.

(** The zero value of [tState], read from the map for an absent key. *)
#[global] Instance tState_inhabited : Inhabited tState := populate stateNew.

Section Graph.

Context {V I E : Type} `{Countable I}.

(** The values of Go's [error] that the sort can return. *)
Inductive error : Type :=
  | ErrorString (msg : string)
  | CycleError (Path : list V)
  | CallerError (e : E).

(** [type NodeProvider interface]. *)
Record NodeProvider : Type := {
  ID : V → I;
  ChildCount : V → Z;
  Child : V → Z → V + error;
}.

(** What the log holds: one invocation of a provider method, or the entry
    of [dfsVisit] for [vertex], with the state found for its identifier
    and the path received. *)
Inductive Event : Type :=
  | CallID (vertex : V)
  | CallChildCount (vertex : V)
  | CallChild (vertex : V) (index : Z)
  | Enter (vertex : V) (found : tState) (path : list V).

(** The objects shared by all the visits of one [TopSort] invocation. *)
Record State : Type := mkState {
  traversalState : gmap I tState;
  sorted : list V;
  log : list Event;
}.

Definition initState : State :=
  {| traversalState := ∅; sorted := []; log := [] |}.

Definition record (ev : Event) (s : State) : State :=
  {| traversalState := traversalState s;
     sorted := sorted s;
     log := log s ++ [ev] |}.

(** [traversalState[id] = st] *)
Definition setState (id : I) (st : tState) (s : State) : State :=
  {| traversalState := <[id := st]> (traversalState s);
     sorted := sorted s;
     log := log s |}.

(** The statement that appends [node] to the slice behind [sorted]. *)
Definition appendSorted (node : V) (s : State) : State :=
  {| traversalState := traversalState s;
     sorted := sorted s ++ [node];
     log := log s |}.

(** The result of a visit: [None] when the depth bound is reached, else
    the returned [error] ([None] for [nil]) and the state left behind. *)
Definition outcome : Type := option (option error * State).

Section Visit.

Variable nodeProvider : NodeProvider.

(** The loop [for i := 0; i < ChildCount(node); i++] of [dfsVisit], over
    the indices still to do. [ChildCount] is evaluated before every
    iteration and once more when the loop ends. *)
Fixpoint visitChildren (visit : V → State → list V → outcome)
    (node : V) (path : list V) (indices : list Z) (s : State) : outcome :=
  let s := record (CallChildCount node) s in
  match indices with
  | [] => Some (None, s)
  | i :: rest =>
      let s := record (CallChild node i) s in
      match Child nodeProvider node i with
      | inr err => Some (Some err, s)
      | inl c =>
          match visit c s path with
          | None => None
          | Some (Some err, s') => Some (Some err, s')
          | Some (None, s') => visitChildren visit node path rest s'
          end
      end
  end.

Fixpoint dfsVisit (fuel : nat) (node : V) (s : State) (path : list V)
    : outcome :=
  match fuel with
  | O => None
  | S fuel' =>
      let id := ID nodeProvider node in
      let s := record (CallID node) s in
      let s := record (Enter node (traversalState s !!! id) path) s in
      match traversalState s !!! id with
      | stateOpen => Some (Some (CycleError (path ++ [node])), s)
      | stateClosed => Some (None, s)
      | stateNew =>
          let s := setState id stateOpen s in
          let path := path ++ [node] in
          match visitChildren (dfsVisit fuel') node path
                  (seqZ 0 (ChildCount nodeProvider node)) s with
          | None => None
          | Some (Some err, s') => Some (Some err, s')
          | Some (None, s') =>
              Some (None, appendSorted node (setState id stateClosed s'))
          end
      end
  end.

(** The loop [for _, node := range graph] of [TopSort]; every root starts
    with a fresh empty path. *)
Fixpoint visitRoots (fuel : nat) (graph : list V) (s : State) : outcome :=
  match graph with
  | [] => Some (None, s)
  | node :: rest =>
      match dfsVisit fuel node s [] with
      | None => None
      | Some (Some err, s') => Some (Some err, s')
      | Some (None, s') => visitRoots fuel rest s'
      end
  end.

End Visit.

(** What a call of [TopSort] gives back: the result slice ([None] for the
    [nil] slice), the error ([None] for [nil]), and the log. *)
Definition result : Type := option (list V) * option error * list Event.

(** [TopSort(nodeProvider, graph...)]; a [nil] provider is [None]. *)
Definition TopSort (fuel : nat) (nodeProvider : option NodeProvider)
    (graph : list V) : option result :=
  match nodeProvider with
  | None =>
      Some (None,
            Some (ErrorString "nodeProvider should be a valid reference"),
            [])
  | Some np =>
      match visitRoots np fuel graph initState with
      | None => None
      | Some (Some err, s) => Some (None, Some err, log s)
      | Some (None, s) => Some (Some (sorted s), None, log s)
      end
  end.

(** [func (e *CycleError) Error() string]. The two other shapes of
    [error] print the text given to [errors.New] and whatever the caller's
    own error prints ([callerText]). *)
Definition Error (callerText : E → string) (e : error) : string :=
  match e with
  | ErrorString msg => msg
  | CycleError _ => "not a dag"
  | CallerError c => callerText c
  end.

End Graph.

Arguments error : clear implicits.
Arguments NodeProvider : clear implicits.
Arguments Event : clear implicits.
Arguments State V I {_ _}.
Arguments outcome V I E {_ _}.
Arguments result : clear implicits.

(** ** The same code in the store of a process

    [TopSort] creates its map and its slice with [make], at every call,
    and hands them to [dfsVisit] by reference: the map is a reference
    type, the slice travels as a pointer to the variable. Here the
    objects of all the calls of a process live in one [Store]; [make]
    allocates a new object in it, and [dfsVisit] reads and writes the two
    objects it is given the addresses of. This is the model in which "a
    second invocation" can be said: it runs in the store the first
    invocation left behind. The log is left out. *)

Section Store.

Context {V I E : Type} `{Countable I}.

(** The map objects and the slice variables allocated so far, by
    address. *)
Record Store : Type := mkStore {
  mapObjects : list (gmap I tState);
  sliceVars : list (list V);
}.

(** [make(map[interface{}]tState)]: a new, empty map object. *)
Definition makeMap (σ : Store) : nat * Store :=
  (length (mapObjects σ), mkStore (mapObjects σ ++ [∅]) (sliceVars σ)).

(** [make([]interface{}, 0)]: a new variable holding the empty slice. *)
Definition makeSlice (σ : Store) : nat * Store :=
  (length (sliceVars σ), mkStore (mapObjects σ) (sliceVars σ ++ [[]])).

(** [traversalState[id]] for the map object at address [m]. *)
Definition readMap (m : nat) (id : I) (σ : Store) : tState :=
  (mapObjects σ !!! m) !!! id.

(** [traversalState[id] = st] for the map object at address [m]. *)
Definition writeMap (m : nat) (id : I) (st : tState) (σ : Store) : Store :=
  mkStore (alter (insert id st) m (mapObjects σ)) (sliceVars σ).

(** The slice in the variable at address [r]. *)
Definition readSlice (r : nat) (σ : Store) : list V := sliceVars σ !!! r.

(** The statement that appends [node] to the slice in the variable at
    address [r]. *)
Definition appendSlice (r : nat) (node : V) (σ : Store) : Store :=
  mkStore (mapObjects σ) (alter (λ l, l ++ [node]) r (sliceVars σ)).

Definition outcomeIn : Type := option (option (error V E) * Store).

Section VisitIn.

Variable nodeProvider : NodeProvider V I E.

(** The child loop of [dfsVisit], over the indices still to do. *)
Fixpoint visitChildrenIn (visit : V → Store → list V → outcomeIn)
    (node : V) (path : list V) (indices : list Z) (σ : Store) : outcomeIn :=
  match indices with
  | [] => Some (None, σ)
  | i :: rest =>
      match Child nodeProvider node i with
      | inr err => Some (Some err, σ)
      | inl c =>
          match visit c σ path with
          | None => None
          | Some (Some err, σ') => Some (Some err, σ')
          | Some (None, σ') => visitChildrenIn visit node path rest σ'
          end
      end
  end.

(** [dfsVisit], with [traversalState] the address of the map and
    [sorted] the address of the slice variable. *)
Fixpoint dfsVisitIn (fuel : nat) (node : V) (traversalState sorted : nat)
    (σ : Store) (path : list V) : outcomeIn :=
  match fuel with
  | O => None
  | S fuel' =>
      let id := ID nodeProvider node in
      match readMap traversalState id σ with
      | stateOpen => Some (Some (CycleError (path ++ [node])), σ)
      | stateClosed => Some (None, σ)
      | stateNew =>
          let σ := writeMap traversalState id stateOpen σ in
          let path := path ++ [node] in
          match visitChildrenIn
                  (λ c σ path,
                     dfsVisitIn fuel' c traversalState sorted σ path)
                  node path (seqZ 0 (ChildCount nodeProvider node)) σ with
          | None => None
          | Some (Some err, σ') => Some (Some err, σ')
          | Some (None, σ') =>
              Some (None,
                    appendSlice sorted node
                      (writeMap traversalState id stateClosed σ'))
          end
      end
  end.

(** The loop over the roots of [TopSort]. *)
Fixpoint visitRootsIn (fuel : nat) (graph : list V)
    (traversalState results : nat) (σ : Store) : outcomeIn :=
  match graph with
  | [] => Some (None, σ)
  | node :: rest =>
      match dfsVisitIn fuel node traversalState results σ [] with
      | None => None
      | Some (Some err, σ') => Some (Some err, σ')
      | Some (None, σ') => visitRootsIn fuel rest traversalState results σ'
      end
  end.

End VisitIn.

(** [TopSort] called in the store [σ]: the slice and the error it
    returns, and the store it leaves. *)
Definition TopSortIn (fuel : nat) (nodeProvider : option (NodeProvider V I E))
    (graph : list V) (σ : Store)
    : option (option (list V) * option (error V E) * Store) :=
  match nodeProvider with
  | None =>
      Some (None,
            Some (ErrorString "nodeProvider should be a valid reference"),
            σ)
  | Some np =>
      let '(traversalState, σ) := makeMap σ in
      let '(results, σ) := makeSlice σ in
      match visitRootsIn np fuel graph traversalState results σ with
      | None => None
      | Some (Some err, σ') => Some (None, Some err, σ')
      | Some (None, σ') => Some (Some (readSlice results σ'), None, σ')
      end
  end.

End Store.

Arguments Store V I {_ _}.
Arguments outcomeIn V I E {_ _}.

(** ** The graph a provider describes, and the predicates of the proofs *)

Section Predicates.

Context {V I E : Type} `{Countable I}.

Implicit Types (np : NodeProvider V I E) (s : State V I).

(** Two providers whose three methods agree on every argument. *)
Definition agree np1 np2 : Prop :=
  (∀ v, ID np1 v = ID np2 v) ∧
  (∀ v, ChildCount np1 v = ChildCount np2 v) ∧
  (∀ v i, Child np1 v i = Child np2 v i).

(** [c] is a child of [u]: some index in range resolves to it. *)
Definition edge np (u c : V) : Prop :=
  ∃ i, 0 ≤ i < ChildCount np u ∧ Child np u i = inl c.

(** The vertices the sort can come to from the roots. *)
Inductive reachable np (roots : list V) : V → Prop :=
  | reachable_root r : r ∈ roots → reachable np roots r
  | reachable_child u c :
      reachable np roots u → edge np u c → reachable np roots c.

(** Every vertex of [path] but the first is a child of the one before. *)
Definition chain np (path : list V) : Prop :=
  ∀ k u c, path !! k = Some u → path !! S k = Some c → edge np u c.

(** The events at which the sort gives up, with the error it then
    returns: a child lookup that the provider fails, and the entry of a
    visit that finds its identifier open. *)
Definition fatal np (ev : Event V) (err : error V E) : Prop :=
  match ev with
  | CallChild v i => Child np v i = inr err
  | Enter v stateOpen path => err = CycleError (path ++ [v])
  | _ => False
  end.

Definition harmless np (ev : Event V) : Prop := ∀ err, ¬ fatal np ev err.

(** What a visit started in [s] with outcome [o] adds to the log: only
    harmless events when it succeeds; when it fails, harmless events and
    then one fatal event, the last, whose error is the one returned. *)
Definition trace_post np s (o : option (error V E) * State V I) : Prop :=
  ∃ t, log o.2 = log s ++ t ∧
    match o.1 with
    | None => Forall (harmless np) t
    | Some err =>
        ∃ t' ev,
          t = t' ++ [ev] ∧ Forall (harmless np) t' ∧ fatal np ev err
    end.

(** The identifiers of [U] that no visit has opened yet. *)
Definition unvisited (U : gset I) s : gset I :=
  filter (λ i, traversalState s !!! i = stateNew) U.

Definition isEnter (ev : Event V) : bool :=
  match ev with Enter _ _ _ => true | _ => false end.

(** The number of visits a log records: the calls of [dfsVisit]. *)
Definition entries (l : list (Event V)) : nat :=
  length (List.filter isEnter l).

(** What [k] visits over vertices with at most [B] children each may
    cost: they open identifiers of [U] only, and the visits logged are paid
    by [k] and by [B] for each identifier opened. *)
Definition budget np roots (U : gset I) (k : nat) s s' : Prop :=
  unvisited U s' ⊆ unvisited U s ∧
  ∀ B : nat,
    (∀ v, reachable np roots v → ChildCount np v ≤ Z.of_nat B) →
    (entries (log s') + B * size (unvisited U s')
     ≤ entries (log s) + k + B * size (unvisited U s))%nat.

(** The identifiers that a log shows going from [stateNew] to
    [stateOpen]: those of the visits entered on a new identifier. *)
Definition opening np (ev : Event V) : option I :=
  match ev with
  | Enter v stateNew _ => Some (ID np v)
  | _ => None
  end.

Definition opened np (l : list (Event V)) : list I := omap (opening np) l.

(** No identifier was opened twice, and none that was opened is new. *)
Definition openedOnce np s : Prop :=
  NoDup (opened np (log s)) ∧
  ∀ i, i ∈ opened np (log s) → traversalState s !!! i ≠ stateNew.

(** A path the sort may hold: a chain of vertices it can come to. *)
Definition pathOK np roots (path : list V) : Prop :=
  chain np path ∧ ∀ v, v ∈ path → reachable np roots v.

(** The invariant of the traversal between two visits, [path] being the
    path of the visit under way: the open identifiers are those of the
    path, the closed ones those of the result, no identifier is twice in
    the result, every child of a vertex of the result has its identifier
    earlier in the result, and the result holds reachable vertices only. *)
Record Inv np roots s (path : list V) : Prop := {
  inv_open : ∀ i,
    traversalState s !!! i = stateOpen ↔ i ∈ ID np <$> path;
  inv_closed : ∀ i,
    traversalState s !!! i = stateClosed ↔ i ∈ ID np <$> sorted s;
  inv_nodup : NoDup (ID np <$> sorted s);
  inv_order : ∀ l1 v l2 c,
    sorted s = l1 ++ v :: l2 → edge np v c → ID np c ∈ ID np <$> l1;
  inv_reach : ∀ v, v ∈ sorted s → reachable np roots v;
}.

(** The errors a visit entered with the path [full] (its own vertex
    last) may return: a [CycleError] whose path extends [full], is a chain
    of reachable vertices and ends on a vertex whose identifier is already
    on it; or the error of a child lookup of a reachable vertex. *)
Definition errPost np roots (full : list V) (err : error V E) : Prop :=
  (∃ pre node,
      err = CycleError (pre ++ [node]) ∧
      full `prefix_of` pre ++ [node] ∧
      pathOK np roots (pre ++ [node]) ∧
      ID np node ∈ ID np <$> pre)
  ∨ (∃ v i,
      reachable np roots v ∧ 0 ≤ i < ChildCount np v ∧
      Child np v i = inr err).

(** What a visit of [node] entered in [s] with [path] establishes. *)
Definition visitPost np roots s (path : list V) (node : V)
    (o : option (error V E) * State V I) : Prop :=
  match o.1 with
  | None =>
      Inv np roots o.2 path ∧
      traversalState o.2 !!! ID np node = stateClosed ∧
      sorted s `prefix_of` sorted o.2
  | Some err => errPost np roots (path ++ [node]) err
  end.

(** What the child loop of [node] over [indices] establishes. *)
Definition loopPost np roots s (path : list V) (node : V)
    (indices : list Z) (o : option (error V E) * State V I) : Prop :=
  match o.1 with
  | None =>
      Inv np roots o.2 path ∧
      sorted s `prefix_of` sorted o.2 ∧
      ∀ i c, i ∈ indices → Child np node i = inl c →
             traversalState o.2 !!! ID np c = stateClosed
  | Some err => errPost np roots path err
  end.

(** What the loop over the roots [graph] establishes. *)
Definition rootsPost np roots s (graph : list V)
    (o : option (error V E) * State V I) : Prop :=
  match o.1 with
  | None =>
      Inv np roots o.2 [] ∧
      sorted s `prefix_of` sorted o.2 ∧
      ∀ r, r ∈ graph → traversalState o.2 !!! ID np r = stateClosed
  | Some err => ∃ r, r ∈ graph ∧ errPost np roots [r] err
  end.

(** The assumptions on the graph that the provider describes from the
    roots: its identifiers lie in the finite set [U]; every child lookup in
    range succeeds; distinct vertices have distinct identifiers; no vertex
    is its own descendant. *)
Definition covers np roots (U : gset I) : Prop :=
  ∀ v, reachable np roots v → ID np v ∈ U.

Definition resolvable np roots : Prop :=
  ∀ v i, reachable np roots v → 0 ≤ i < ChildCount np v →
         ∃ c, Child np v i = inl c.

Definition consistent np roots : Prop :=
  ∀ u v, reachable np roots u → reachable np roots v →
         ID np u = ID np v → u = v.

Definition acyclic np roots : Prop :=
  ∀ v, reachable np roots v → ¬ tc (edge np) v v.

(** An event that keeps to the provider's contract: its vertex is one the
    sort can come to from the roots, and a child is asked for at an index
    from [0] up to [ChildCount] only. *)
Definition inContract np roots (ev : Event V) : Prop :=
  match ev with
  | CallID v | CallChildCount v | Enter v _ _ => reachable np roots v
  | CallChild v i => reachable np roots v ∧ 0 ≤ i < ChildCount np v
  end.

(** The child lookups that a log records. *)
Definition lookup_of (ev : Event V) : option (V * Z) :=
  match ev with
  | CallChild v i => Some (v, i)
  | _ => None
  end.

Definition lookups (l : list (Event V)) : list (V * Z) := omap lookup_of l.

(** A visit entered below a simple branch: the path it received holds
    no identifier twice and, with its vertex appended, is a chain of
    vertices the sort can come to; and the visit found its identifier open
    exactly when the path holds that identifier. *)
Definition simpleBranch np roots (ev : Event V) : Prop :=
  match ev with
  | Enter v found path =>
      NoDup (ID np <$> path) ∧ pathOK np roots (path ++ [v]) ∧
      (found = stateOpen ↔ ID np v ∈ ID np <$> path)
  | _ => True
  end.

(** The map never takes an identifier back to [stateNew]. *)
Definition keepsOpened s s' : Prop :=
  ∀ id, traversalState s !!! id ≠ stateNew →
        traversalState s' !!! id ≠ stateNew.

(** What a visit started in [s] and ended in [s'] adds to the child
    lookups: each at most once, and only for vertices whose identifier was
    new before the visit and is not after it. *)
Definition freshLookups np s s' : Prop :=
  ∃ t, log s' = log s ++ t ∧
    NoDup (lookups t) ∧
    (∀ v i, (v, i) ∈ lookups t →
            traversalState s !!! ID np v = stateNew ∧
            traversalState s' !!! ID np v ≠ stateNew) ∧
    keepsOpened s s'.

(** The same for the child loop of [node], which also looks up the
    children of [node] at the [indices] it runs over. *)
Definition loopLookups np (node : V) (indices : list Z) s s' : Prop :=
  ∃ t, log s' = log s ++ t ∧
    NoDup (lookups t) ∧
    (∀ v i, (v, i) ∈ lookups t →
            ((v = node ∧ i ∈ indices) ∨
             traversalState s !!! ID np v = stateNew) ∧
            traversalState s' !!! ID np v ≠ stateNew) ∧
    keepsOpened s s'.

(** Two providers that agree where a sort from [roots] can come: on the
    identifier and the child count of every vertex reachable with the
    first, and on its children at the indices in range. *)
Definition agreeOn np1 np2 roots : Prop :=
  ∀ v, reachable np1 roots v →
    ID np1 v = ID np2 v ∧
    ChildCount np1 v = ChildCount np2 v ∧
    ∀ i, 0 ≤ i < ChildCount np1 v → Child np1 v i = Child np2 v i.

(** The children of [v]: what its indices in range resolve to. *)
Definition childrenOf np (v : V) : list V :=
  omap (λ i, match Child np v i with inl c => Some c | inr _ => None end)
       (seqZ 0 (ChildCount np v)).

(** The order the specification describes, written without a map and
    without failures, on the list [done] of the vertices resolved so far:
    a vertex whose identifier is resolved adds nothing; any other vertex
    has its children resolved first, in the order of their indices, and is
    appended after them. [fuel] bounds the depth. *)
Fixpoint specVisit (fuel : nat) np (v : V) (done : list V) : list V :=
  match fuel with
  | O => done
  | S fuel' =>
      if decide (ID np v ∈ ID np <$> done) then done
      else foldl (λ acc c, specVisit fuel' np c acc) done (childrenOf np v)
           ++ [v]
  end.

(** The roots are resolved from left to right. *)
Definition specPostorder (fuel : nat) np (roots : list V) : list V :=
  foldl (λ acc r, specVisit fuel np r acc) [] roots.

(** The closed identifiers are those of the result. *)
Definition closedSorted np s : Prop :=
  ∀ i, traversalState s !!! i = stateClosed ↔ i ∈ ID np <$> sorted s.

(** The store [σ] with the map and the slice of [s] allocated after its
    objects. *)
Definition view (σ : Store V I) s : Store V I :=
  mkStore (mapObjects σ ++ [traversalState s]) (sliceVars σ ++ [sorted s]).

Definition viewOutcome (σ : Store V I) (o : outcome V I E)
    : outcomeIn V I E :=
  match o with
  | None => None
  | Some (r, s') => Some (r, view σ s')
  end.

End Predicates.

(** ** Concrete graphs, for evaluation *)

Module Samples.

(** A provider over [nat] vertices given by adjacency lists; the
    identifier of a vertex is the vertex, and a child index outside the
    list is a lookup failure carrying the index. *)
Definition listProvider (adj : nat → list nat) : NodeProvider nat nat Z :=
  {| ID := λ v, v;
     ChildCount := λ v, Z.of_nat (length (adj v));
     Child := λ v i,
       match adj v !! Z.to_nat i with
       | Some c => inl c
       | None => inr (CallerError i)
       end |}.

(** A -> B, C; B -> D; C -> D (A = 0, B = 1, C = 2, D = 3). *)
Definition diamond (v : nat) : list nat :=
  match v with
  | O => [1; 2]
  | 1 => [3]
  | 2 => [3]
  | _ => []
  end%nat.

(** A -> B -> C -> A. *)
Definition triangle (v : nat) : list nat :=
  match v with
  | O => [1]
  | 1 => [2]
  | 2 => [0]
  | _ => []
  end%nat.

(** A -> B, B -> B: a vertex that is its own child, below the root. *)
Definition lasso (v : nat) : list nat :=
  match v with
  | O => [1]
  | 1 => [1]
  | _ => []
  end%nat.

(** The diamond again, as a table. *)
Definition diamondTable (v : nat) : list nat :=
  default [] ([[1; 2]; [3]; [3]]%nat !! v).

(** The diamond, and a vertex 7 outside it that points into it. *)
Definition diamondPlus (v : nat) : list nat :=
  match v with
  | 7 => [0; 7]
  | _ => diamond v
  end%nat.

(** The identifiers [0 .. n-1]. *)
Definition ids (n : nat) : gset nat := list_to_set (seq 0 n).

(** Vertex 0 announces two children; the first is vertex 1, the lookup
    of the second fails. Vertices 1 and 5 are leaves. *)
Definition broken : NodeProvider nat nat string :=
  {| ID := λ v, v;
     ChildCount := λ v, match v with O => 2 | _ => 0 end;
     Child := λ v i,
       match v, i with
       | O, 0 => inl 1%nat
       | _, _ => inr (CallerError "broken reference")
       end |}.

End Samples.

(** Membership in a list that is written out. *)
Ltac in_list :=
  repeat first [apply list_elem_of_here | apply list_elem_of_further].

(** ** Fuel and provider independence *)

Section Determinism.

Context {V I E : Type} `{Countable I}.

Implicit Types (np : NodeProvider V I E) (s : State V I) (node : V).
Implicit Types (path graph : list V) (o : option (error V E) * State V I).

(** The child loop is monotone in the visit function it is given. *)
Lemma visitChildren_mono np
    (visit1 visit2 : V → State V I → list V → outcome V I E)
    node path indices s o :
  (∀ c s' o', visit1 c s' path = Some o' → visit2 c s' path = Some o') →
  visitChildren np visit1 node path indices s = Some o →
  visitChildren np visit2 node path indices s = Some o.
Proof.
  intros Hv. revert s. induction indices as [|i rest IH]; intros s; simpl.
  - done.
  - destruct (Child np node i) as [c|err]; [|done].
    destruct (visit1 c _ path) as [[[err|] s']|] eqn:Hc; [| |done].
    + intros <-. by rewrite (Hv _ _ _ Hc).
    + rewrite (Hv _ _ _ Hc). apply IH.
Qed.

(** More fuel never changes an outcome that was reached. *)
Lemma dfsVisit_fuel_mono np fuel fuel' node s path o :
  (fuel ≤ fuel')%nat →
  dfsVisit np fuel node s path = Some o →
  dfsVisit np fuel' node s path = Some o.
Proof.
  revert fuel' node s path o.
  induction fuel as [|fuel IH]; intros fuel' node s path o Hle; [done|].
  destruct fuel' as [|fuel']; [lia|]. simpl.
  destruct (_ !!! _); [|done..].
  destruct (visitChildren np (dfsVisit np fuel) _ _ _ _) as [o1|] eqn:Hc;
    [|done].
  eapply visitChildren_mono in Hc as ->; [done|].
  intros c s' o'. apply IH. lia.
Qed.

Lemma visitRoots_fuel_mono np fuel fuel' graph s o :
  (fuel ≤ fuel')%nat →
  visitRoots np fuel graph s = Some o →
  visitRoots np fuel' graph s = Some o.
Proof.
  intros Hle. revert s. induction graph as [|node rest IH]; intros s; simpl;
    [done|].
  destruct (dfsVisit np fuel node s []) as [[[err|] s']|] eqn:Hd; [| |done].
  - intros <-. by rewrite (dfsVisit_fuel_mono _ _ _ _ _ _ _ Hle Hd).
  - rewrite (dfsVisit_fuel_mono _ _ _ _ _ _ _ Hle Hd). apply IH.
Qed.

Lemma TopSort_fuel_mono fuel fuel' (onp : option (NodeProvider V I E)) graph r :
  (fuel ≤ fuel')%nat →
  TopSort fuel onp graph = Some r →
  TopSort fuel' onp graph = Some r.
Proof.
  intros Hle. destruct onp as [np|]; simpl; [|done].
  destruct (visitRoots np fuel graph initState) as [o|] eqn:Hr; [|done].
  by rewrite (visitRoots_fuel_mono _ _ _ _ _ _ Hle Hr).
Qed.

Lemma visitChildren_agree np1 np2
    (visit1 visit2 : V → State V I → list V → outcome V I E)
    node path indices s :
  agree np1 np2 →
  (∀ c s', visit1 c s' path = visit2 c s' path) →
  visitChildren np1 visit1 node path indices s
  = visitChildren np2 visit2 node path indices s.
Proof.
  intros (_ & _ & Hch) Hv. revert s.
  induction indices as [|i rest IH]; intros s; simpl; [done|].
  rewrite Hch. destruct (Child np2 node i) as [c|err]; [|done].
  rewrite Hv. destruct (visit2 c _ path) as [[[err|] s']|]; auto.
Qed.

Lemma dfsVisit_agree np1 np2 fuel node s path :
  agree np1 np2 →
  dfsVisit np1 fuel node s path = dfsVisit np2 fuel node s path.
Proof.
  intros Hag. revert node s path.
  induction fuel as [|fuel IH]; intros node s path; simpl; [done|].
  destruct Hag as (Hid & Hcnt & Hch). rewrite Hid, Hcnt.
  destruct (_ !!! _); [|done..].
  by rewrite (visitChildren_agree np1 np2 (dfsVisit np1 fuel)
                (dfsVisit np2 fuel)).
Qed.

Lemma visitRoots_agree np1 np2 fuel graph s :
  agree np1 np2 →
  visitRoots np1 fuel graph s = visitRoots np2 fuel graph s.
Proof.
  intros Hag. revert s. induction graph as [|node rest IH]; intros s; simpl;
    [done|].
  rewrite (dfsVisit_agree np1 np2) by done.
  destruct (dfsVisit np2 fuel node s []) as [[[err|] s']|]; auto.
Qed.

End Determinism.

(** ** The log *)

Section Trace.

Context {V I E : Type} `{Countable I}.

Implicit Types (np : NodeProvider V I E) (s : State V I) (node : V).
Implicit Types (path graph : list V) (o : option (error V E) * State V I).

Lemma trace_post_refl np s : trace_post np s (None, s).
Proof. exists []. simpl. by rewrite app_nil_r. Qed.

Lemma trace_post_trans np s s1 o :
  trace_post np s (None, s1) → trace_post np s1 o → trace_post np s o.
Proof.
  intros (t & Hs & Ht) (t1 & Hc & Ho). simpl in *. exists (t ++ t1). split.
  - by rewrite Hc, Hs, app_assoc.
  - destruct o.1 as [err|].
    + destruct Ho as (t' & c & -> & Hok & He).
      exists (t ++ t'), c. rewrite app_assoc. split_and!; [done| |done].
      by apply Forall_app.
    + by apply Forall_app.
Qed.

Lemma trace_post_record np s ev :
  harmless np ev → trace_post np s (None, record ev s).
Proof. intros Hc. exists [ev]. split; [done|]. by repeat constructor. Qed.

Lemma trace_post_fatal np s ev err :
  fatal np ev err → trace_post np s (Some err, record ev s).
Proof.
  intros Hf. exists [ev]. split; [done|]. simpl.
  exists [], ev. split_and!; [done|constructor|done].
Qed.

Lemma harmless_ID np v : harmless np (CallID v).
Proof. intros err []. Qed.

Lemma harmless_ChildCount np v : harmless np (CallChildCount v).
Proof. intros err []. Qed.

Lemma harmless_Child np v i c :
  Child np v i = inl c → harmless np (CallChild v i).
Proof. intros Hc err Hf. simpl in Hf. congruence. Qed.

Lemma harmless_Enter np v st path :
  st ≠ stateOpen → harmless np (Enter v st path).
Proof. intros Hst err Hf. by destruct st. Qed.

Lemma visitChildren_trace np
    (visit : V → State V I → list V → outcome V I E)
    node path indices s o :
  (∀ c s' o', visit c s' path = Some o' → trace_post np s' o') →
  visitChildren np visit node path indices s = Some o →
  trace_post np s o.
Proof.
  intros Hv. revert s. induction indices as [|i rest IH]; intros s; simpl.
  - intros [= <-]. apply trace_post_record, harmless_ChildCount.
  - intros Ho. eapply trace_post_trans;
      [apply trace_post_record, (harmless_ChildCount np node)|].
    destruct (Child np node i) as [c|err] eqn:Hch.
    + eapply trace_post_trans;
        [apply trace_post_record, (harmless_Child np node i c Hch)|].
      destruct (visit c _ path) as [[r s']|] eqn:Hc; [|done].
      apply Hv in Hc. destruct r as [err|].
      * by injection Ho as <-.
      * eapply trace_post_trans; [exact Hc|]. by apply IH.
    + injection Ho as <-. by apply trace_post_fatal.
Qed.

Lemma dfsVisit_trace np fuel node s path o :
  dfsVisit np fuel node s path = Some o → trace_post np s o.
Proof.
  revert node s path o.
  induction fuel as [|fuel IH]; intros node s path o; simpl; [done|].
  intros Ho.
  eapply trace_post_trans; [apply trace_post_record, (harmless_ID np node)|].
  destruct (_ !!! _) eqn:Hst.
  - eapply trace_post_trans;
      [by apply trace_post_record, (harmless_Enter np node stateNew path)|].
    destruct (visitChildren _ _ _ _ _ _) as [[r s']|] eqn:Hc; [|done].
    apply visitChildren_trace in Hc; [|by eauto].
    destruct r as [err|]; injection Ho as <-; exact Hc.
  - injection Ho as <-. by apply trace_post_fatal.
  - injection Ho as <-.
    by apply trace_post_record, (harmless_Enter np node stateClosed path).
Qed.

Lemma visitRoots_trace np fuel graph s o :
  visitRoots np fuel graph s = Some o → trace_post np s o.
Proof.
  revert s. induction graph as [|node rest IH]; intros s; simpl.
  - intros [= <-]. apply trace_post_refl.
  - destruct (dfsVisit np fuel node s []) as [[r s']|] eqn:Hd; [|done].
    apply dfsVisit_trace in Hd. destruct r as [err|].
    + by intros [= <-].
    + intros Ho. eapply trace_post_trans; [exact Hd|]. by apply IH.
Qed.

End Trace.

(** ** Termination *)

Section Termination.

Context {V I E : Type} `{Countable I}.
Context (np : NodeProvider V I E) (roots : list V) (U : gset I).
Hypothesis HU : ∀ v, reachable np roots v → ID np v ∈ U.

Implicit Types (s : State V I) (node : V) (path : list V).

Lemma entries_snoc (l : list (Event V)) ev :
  entries (l ++ [ev]) = (entries l + if isEnter ev then 1 else 0)%nat.
Proof.
  unfold entries. rewrite List.filter_app, length_app. simpl.
  by destruct (isEnter ev).
Qed.

Lemma unvisited_open id st s :
  id ∈ U → traversalState s !!! id = stateNew → st ≠ stateNew →
  unvisited U (setState id st s) ⊂ unvisited U s.
Proof.
  intros Hid Hnew Hst. unfold unvisited. simpl. split.
  - intros i [Hi HiU]%elem_of_filter. apply elem_of_filter. split; [|done].
    destruct (decide (i = id)) as [->|Hne]; [done|].
    by rewrite lookup_total_insert_ne in Hi.
  - intros Hsub. specialize (Hsub id). rewrite !elem_of_filter in Hsub.
    destruct Hsub as [Hsub _]; [done|].
    by rewrite lookup_total_insert_eq in Hsub.
Qed.

Lemma unvisited_close id s :
  unvisited U (setState id stateClosed s) ⊆ unvisited U s.
Proof.
  unfold unvisited. simpl.
  intros i [Hi HiU]%elem_of_filter. apply elem_of_filter. split; [|done].
  destruct (decide (i = id)) as [->|Hne].
  - by rewrite lookup_total_insert_eq in Hi.
  - by rewrite lookup_total_insert_ne in Hi.
Qed.

Lemma budget_trans k1 k2 s s1 s2 :
  budget np roots U k1 s s1 → budget np roots U k2 s1 s2 →
  budget np roots U (k1 + k2) s s2.
Proof.
  intros [Hs1 Hb1] [Hs2 Hb2]. split; [by etrans|].
  intros B HB. specialize (Hb1 B HB). specialize (Hb2 B HB). lia.
Qed.

Lemma budget_record ev s :
  budget np roots U (if isEnter ev then 1 else 0) s (record ev s).
Proof.
  split; [done|]. intros B _. simpl. rewrite entries_snoc.
  change (unvisited U (record ev s)) with (unvisited U s). lia.
Qed.

Lemma budget_weaken k k' s s' :
  (k ≤ k')%nat → budget np roots U k s s' → budget np roots U k' s s'.
Proof.
  intros Hk [Hs Hb]. split; [done|]. intros B HB. specialize (Hb B HB). lia.
Qed.

(** The child loop ends when every visit it starts does. *)
Lemma visitChildren_terminates fuel node path indices s :
  (∀ c s1, reachable np roots c →
     (size (unvisited U s1) < fuel)%nat →
     ∃ r s', dfsVisit np fuel c s1 path = Some (r, s') ∧
             budget np roots U 1 s1 s') →
  reachable np roots node →
  (∀ i, i ∈ indices → 0 ≤ i < ChildCount np node) →
  (size (unvisited U s) < fuel)%nat →
  ∃ r s', visitChildren np (dfsVisit np fuel) node path indices s
          = Some (r, s') ∧
          budget np roots U (length indices) s s'.
Proof.
  intros Hvisit Hnode. revert s.
  induction indices as [|i rest IH]; intros s Hidx Hsize; simpl.
  - eexists _, _. split; [done|].
    apply (budget_record (CallChildCount node)).
  - pose proof (budget_trans _ _ _ _ _
      (budget_record (CallChildCount node) s)
      (budget_record (CallChild node i) _)) as Hb0. simpl in Hb0.
    destruct (Child np node i) as [c|err] eqn:Hch.
    + destruct (Hvisit c (record (CallChild node i)
                            (record (CallChildCount node) s)))
        as (r & s1 & -> & Hb1); [|done|].
      { eapply reachable_child; [done|]. exists i. split; [|done].
        apply Hidx. by left. }
      pose proof (budget_trans _ _ _ _ _ Hb0 Hb1) as Hb2. simpl in Hb2.
      destruct r as [err|].
      * eexists _, _. split; [done|]. eapply budget_weaken; [|done]. lia.
      * destruct (IH s1) as (r & s2 & -> & Hb3).
        { intros j Hj. apply Hidx. by right. }
        { destruct Hb2 as [Hsub _]. apply subseteq_size in Hsub. lia. }
        eexists _, _. split; [done|].
        apply (budget_trans _ _ _ _ _ Hb2 Hb3).
    + eexists _, _. split; [done|]. eapply budget_weaken; [|done]. lia.
Qed.

(** A visit of a reachable vertex returns when the depth bound exceeds
    the number of identifiers still unopened. *)
Lemma dfsVisit_terminates fuel node s path :
  reachable np roots node →
  (size (unvisited U s) < fuel)%nat →
  ∃ r s', dfsVisit np fuel node s path = Some (r, s') ∧
          budget np roots U 1 s s'.
Proof.
  revert node s path.
  induction fuel as [|fuel IH]; intros node s path Hnode Hsize; [lia|].
  simpl.
  pose proof (budget_trans _ _ _ _ _
      (budget_record (CallID node) s)
      (budget_record (Enter node (traversalState s !!! ID np node) path) _))
    as Hb0. simpl in Hb0.
  destruct (traversalState s !!! ID np node) eqn:Hst.
  - set (s0 := record _ (record _ s)) in *.
    pose proof (unvisited_open (ID np node) stateOpen s0 (HU _ Hnode) Hst
                  ltac:(done)) as Hopen.
    destruct (visitChildren_terminates fuel node (path ++ [node])
                (seqZ 0 (ChildCount np node))
                (setState (ID np node) stateOpen s0))
      as (r & s1 & -> & [Hsub Hb1]).
    { intros c s1 Hc Hs1. by apply IH. }
    { done. }
    { intros i Hi%elem_of_seqZ. lia. }
    { apply subset_size in Hopen.
      change (unvisited U s0) with (unvisited U s) in Hopen. lia. }
    assert (budget np roots U 1 s
              (appendSorted node (setState (ID np node) stateClosed s1)))
      as Hfin.
    { split.
      - etrans; [apply unvisited_close|]. etrans; [exact Hsub|].
        apply Hopen.
      - intros B HB. specialize (Hb1 B HB).
        destruct Hb0 as [_ Hb0]. specialize (Hb0 B HB).
        pose proof (subseteq_size _ _ (unvisited_close (ID np node) s1)).
        apply subset_size in Hopen.
        specialize (HB node Hnode). rewrite length_seqZ in Hb1.
        change (unvisited U (appendSorted node
                  (setState (ID np node) stateClosed s1)))
          with (unvisited U (setState (ID np node) stateClosed s1)).
        change (log (appendSorted node
                  (setState (ID np node) stateClosed s1)))
          with (log s1).
        change (log (setState (ID np node) stateOpen s0)) with (log s0)
          in Hb1.
        nia. }
    destruct r as [err|]; eexists _, _; (split; [done|]); [|done].
    split.
    + etrans; [exact Hsub|]. apply Hopen.
    + intros B HB. specialize (Hb1 B HB).
      destruct Hb0 as [_ Hb0]. specialize (Hb0 B HB).
      apply subset_size in Hopen.
      specialize (HB node Hnode). rewrite length_seqZ in Hb1.
      change (log (setState (ID np node) stateOpen s0)) with (log s0)
        in Hb1.
      nia.
  - eexists _, _. split; [done|]. exact Hb0.
  - eexists _, _. split; [done|]. exact Hb0.
Qed.

Lemma visitRoots_terminates fuel graph s :
  (∀ r, r ∈ graph → r ∈ roots) →
  (size (unvisited U s) < fuel)%nat →
  ∃ r s', visitRoots np fuel graph s = Some (r, s') ∧
          budget np roots U (length graph) s s'.
Proof.
  revert s. induction graph as [|node rest IH]; intros s Hsub Hsize; simpl.
  - eexists _, _. split; [done|]. split; [done|]. intros; lia.
  - destruct (dfsVisit_terminates fuel node s []) as (r & s1 & -> & Hb1);
      [|done|].
    { apply reachable_root, Hsub. by left. }
    destruct r as [err|].
    + eexists _, _. split; [done|]. eapply budget_weaken; [|done]. lia.
    + destruct (IH s1) as (r & s2 & -> & Hb2).
      { intros r Hr. apply Hsub. by right. }
      { destruct Hb1 as [Hs _]. apply subseteq_size in Hs. lia. }
      eexists _, _. split; [done|].
      apply (budget_trans _ _ _ _ _ Hb1 Hb2).
Qed.

End Termination.

(** ** Every identifier is opened once *)

Section Opened.

Context {V I E : Type} `{Countable I}.
Context (np : NodeProvider V I E).

Implicit Types (s : State V I) (node : V) (path : list V).

Lemma openedOnce_init : openedOnce np (initState (V:=V)).
Proof. split; [constructor|]. by intros i ?%elem_of_nil. Qed.

Lemma openedOnce_record ev s :
  opening np ev = None → openedOnce np s → openedOnce np (record ev s).
Proof.
  intros Hev [Hnd Hst]. unfold openedOnce, opened in *. simpl.
  rewrite omap_app. simpl. rewrite Hev, app_nil_r. done.
Qed.

Lemma openedOnce_open s node path :
  traversalState s !!! ID np node = stateNew →
  openedOnce np s →
  openedOnce np (setState (ID np node) stateOpen
                   (record (Enter node stateNew path) s)).
Proof.
  intros Hnew [Hnd Hst]. unfold openedOnce, opened in *. simpl.
  rewrite omap_app. simpl. split.
  - apply NoDup_app. split_and!; [done| |apply NoDup_singleton].
    intros i Hi ->%list_elem_of_singleton. by apply (Hst _ Hi).
  - intros i Hi. destruct (decide (i = ID np node)) as [->|Hne].
    + by rewrite lookup_total_insert_eq.
    + rewrite lookup_total_insert_ne by done. apply Hst.
      apply elem_of_app in Hi as [Hi|Hi%list_elem_of_singleton]; done.
Qed.

Lemma openedOnce_close s node :
  openedOnce np s →
  openedOnce np (appendSorted node (setState (ID np node) stateClosed s)).
Proof.
  intros [Hnd Hst]. split; [done|]. simpl. intros i Hi.
  destruct (decide (i = ID np node)) as [->|Hne].
  - by rewrite lookup_total_insert_eq.
  - rewrite lookup_total_insert_ne by done. by apply Hst.
Qed.

Lemma visitChildren_openedOnce
    (visit : V → State V I → list V → outcome V I E)
    node path indices s r s' :
  (∀ c s1 r1 s1', visit c s1 path = Some (r1, s1') →
                  openedOnce np s1 → openedOnce np s1') →
  visitChildren np visit node path indices s = Some (r, s') →
  openedOnce np s → openedOnce np s'.
Proof.
  intros Hv. revert s. induction indices as [|i rest IH]; intros s; simpl.
  - intros [= _ <-] Hs. by apply openedOnce_record.
  - intros Ho Hs.
    assert (openedOnce np (record (CallChild node i)
                             (record (CallChildCount node) s))) as Hs0.
    { do 2 (apply openedOnce_record; [done|]). done. }
    destruct (Child np node i) as [c|err]; [|by injection Ho as _ <-].
    destruct (visit c _ path) as [[[err|] s1]|] eqn:Hc; [| |done].
    + injection Ho as _ <-. by eapply Hv.
    + eapply IH; [done|]. by eapply Hv.
Qed.

Lemma dfsVisit_openedOnce fuel node s path r s' :
  dfsVisit np fuel node s path = Some (r, s') →
  openedOnce np s → openedOnce np s'.
Proof.
  revert node s path r s'.
  induction fuel as [|fuel IH]; intros node s path r s'; simpl; [done|].
  intros Ho Hs.
  assert (openedOnce np (record (CallID node) s)) as Hs0
    by (by apply openedOnce_record).
  destruct (traversalState s !!! ID np node) eqn:Hst.
  - pose proof (openedOnce_open (record (CallID node) s) node path Hst Hs0)
      as Hs1.
    destruct (visitChildren _ _ _ _ _ _) as [[r1 s1]|] eqn:Hc; [|done].
    eapply visitChildren_openedOnce in Hc; [|by eauto|done].
    destruct r1 as [err|]; injection Ho as _ <-; [done|].
    by apply openedOnce_close.
  - injection Ho as _ <-. by apply openedOnce_record.
  - injection Ho as _ <-. by apply openedOnce_record.
Qed.

Lemma visitRoots_openedOnce fuel graph s r s' :
  visitRoots np fuel graph s = Some (r, s') →
  openedOnce np s → openedOnce np s'.
Proof.
  revert s. induction graph as [|node rest IH]; intros s; simpl.
  - by intros [= _ <-].
  - destruct (dfsVisit np fuel node s []) as [[[err|] s1]|] eqn:Hd;
      [| |done]; intros Ho Hs.
    + injection Ho as _ <-. by eapply dfsVisit_openedOnce.
    + eapply IH; [done|]. by eapply dfsVisit_openedOnce.
Qed.

End Opened.

(** ** The invariant of the traversal *)

Section Invariant.

Context {V I E : Type} `{Countable I}.
Context (np : NodeProvider V I E) (roots : list V).

Implicit Types (s : State V I) (node : V) (path : list V).

Lemma chain_snoc path u c :
  chain np path → last path = Some u → edge np u c →
  chain np (path ++ [c]).
Proof.
  intros Hch Hlast Hedge k a b Ha Hb.
  destruct (decide (S k < length path)%nat) as [Hlt|Hge].
  - rewrite lookup_app_l in Ha by lia. rewrite lookup_app_l in Hb by lia.
    by eapply Hch.
  - apply lookup_lt_Some in Hb as Hlen. rewrite length_app in Hlen.
    simpl in Hlen. assert (S k = length path) as Hk by lia.
    rewrite lookup_app_l in Ha by lia.
    rewrite last_lookup in Hlast.
    replace (pred (length path)) with k in Hlast by lia.
    rewrite lookup_app_r in Hb by lia.
    replace (S k - length path)%nat with O in Hb by lia.
    simpl in Hb. congruence.
Qed.

Lemma pathOK_root r : r ∈ roots → pathOK np roots [r].
Proof.
  intros Hr. split.
  - intros k a b Ha Hb. by destruct k.
  - intros v ->%list_elem_of_singleton. by constructor.
Qed.

Lemma pathOK_snoc path u c :
  pathOK np roots path → last path = Some u → edge np u c →
  pathOK np roots (path ++ [c]).
Proof.
  intros [Hch Hre] Hlast Hedge. split; [by eapply chain_snoc|].
  intros v [Hv| ->%list_elem_of_singleton]%elem_of_app; [by auto|].
  eapply reachable_child; [|done]. apply Hre.
  rewrite last_lookup in Hlast. by eapply list_elem_of_lookup_2.
Qed.

Lemma errPost_prefix full full' err :
  full' `prefix_of` full → errPost np roots full err →
  errPost np roots full' err.
Proof.
  intros Hp [(pre & node & -> & Hpre & Hok & Hid)|Hlookup]; [left|by right].
  exists pre, node. split_and!; [done| |done..]. by etrans.
Qed.

Lemma Inv_init : Inv np roots initState [].
Proof.
  split; simpl.
  - intros i. rewrite lookup_total_empty. split; [done|].
    by intros ?%elem_of_nil.
  - intros i. rewrite lookup_total_empty. split; [done|].
    by intros ?%elem_of_nil.
  - constructor.
  - intros l1 v l2 c Hs. by destruct l1.
  - by intros v ?%elem_of_nil.
Qed.

(** The log plays no part in the invariant. *)
Lemma Inv_record ev s path :
  Inv np roots s path → Inv np roots (record ev s) path.
Proof. intros [Hop Hcl Hnd Hord Hre]. by split. Qed.

(** Opening the identifier of [node], found new, when [node] joins the
    path. *)
Lemma Inv_open s path node :
  Inv np roots s path →
  traversalState s !!! ID np node = stateNew →
  Inv np roots (setState (ID np node) stateOpen s) (path ++ [node]).
Proof.
  intros [Hop Hcl Hnd Hord Hre] Hnew. split; simpl; [| |done..].
  - intros i. rewrite fmap_app, elem_of_app. simpl.
    rewrite list_elem_of_singleton.
    destruct (decide (i = ID np node)) as [->|Hne].
    + rewrite lookup_total_insert_eq. intuition congruence.
    + rewrite lookup_total_insert_ne by done. rewrite Hop. intuition congruence.
  - intros i. destruct (decide (i = ID np node)) as [->|Hne].
    + rewrite lookup_total_insert_eq. rewrite <-Hcl, Hnew. intuition congruence.
    + by rewrite lookup_total_insert_ne.
Qed.

(** Closing it and appending [node] to the result, once the identifiers
    of all its children are closed. *)
Lemma Inv_close s path node :
  Inv np roots s (path ++ [node]) →
  ID np node ∉ ID np <$> path →
  reachable np roots node →
  (∀ c, edge np node c → traversalState s !!! ID np c = stateClosed) →
  Inv np roots (appendSorted node (setState (ID np node) stateClosed s)) path.
Proof.
  intros [Hop Hcl Hnd Hord Hre] Hfresh Hnode Hchildren.
  assert (ID np node ∉ ID np <$> sorted s) as Hnotin.
  { rewrite <-Hcl. intros Hc.
    assert (traversalState s !!! ID np node = stateOpen) as Ho; [|congruence].
    apply Hop. rewrite fmap_app. apply elem_of_app. right. by left. }
  split; simpl.
  - intros i. destruct (decide (i = ID np node)) as [->|Hne].
    + rewrite lookup_total_insert_eq. intuition congruence.
    + rewrite lookup_total_insert_ne by done. rewrite Hop.
      rewrite fmap_app, elem_of_app. simpl.
      rewrite list_elem_of_singleton. intuition congruence.
  - intros i. rewrite fmap_app, elem_of_app. simpl.
    rewrite list_elem_of_singleton.
    destruct (decide (i = ID np node)) as [->|Hne].
    + rewrite lookup_total_insert_eq. intuition congruence.
    + rewrite lookup_total_insert_ne by done. rewrite Hcl. intuition congruence.
  - rewrite fmap_app. apply NoDup_app. split_and!; [done| |].
    + intros i Hi ->%list_elem_of_singleton. done.
    + apply NoDup_singleton.
  - intros l1 v l2 c Hs Hedge.
    destruct (decide (l2 = [])) as [->|Hl2].
    + apply app_inj_tail in Hs as [<- <-].
      apply Hcl. by apply Hchildren.
    + destruct (exists_last Hl2) as (l2' & x & ->).
      rewrite app_comm_cons, app_assoc in Hs.
      apply app_inj_tail in Hs as [Hs _].
      by eapply Hord.
  - intros v [Hv| ->%list_elem_of_singleton]%elem_of_app; auto.
Qed.

Lemma Inv_closed_mono s s' path path' i :
  Inv np roots s path → Inv np roots s' path' →
  sorted s `prefix_of` sorted s' →
  traversalState s !!! i = stateClosed →
  traversalState s' !!! i = stateClosed.
Proof.
  intros Hs Hs' [l Hl] Hc. apply (inv_closed _ _ _ _ Hs'). rewrite Hl.
  rewrite fmap_app. apply elem_of_app. left.
  by apply (inv_closed _ _ _ _ Hs).
Qed.

(** The child loop, given that the visits it starts meet [visitPost]. *)
Lemma visitChildren_spec fuel node path indices s o :
  (∀ c s1 o1,
     Inv np roots s1 path → pathOK np roots (path ++ [c]) →
     dfsVisit np fuel c s1 path = Some o1 →
     visitPost np roots s1 path c o1) →
  Inv np roots s path →
  pathOK np roots path → last path = Some node →
  (∀ i, i ∈ indices → 0 ≤ i < ChildCount np node) →
  visitChildren np (dfsVisit np fuel) node path indices s = Some o →
  loopPost np roots s path node indices o.
Proof.
  intros Hvisit Hinv Hok Hlast. revert s Hinv.
  induction indices as [|i rest IH]; intros s Hinv Hidx; simpl.
  - intros [= <-]. unfold loopPost. simpl.
    split_and!; [by apply Inv_record|done|]. by intros i c ?%elem_of_nil.
  - assert (reachable np roots node) as Hnode.
    { apply Hok. rewrite last_lookup in Hlast.
      by eapply list_elem_of_lookup_2. }
    assert (0 ≤ i < ChildCount np node) as Hi by (apply Hidx; by left).
    destruct (Child np node i) as [c|err] eqn:Hch.
    + set (s0 := record _ (record _ s)).
      destruct (dfsVisit np fuel c s0 path) as [[r s1]|] eqn:Hc; [|done].
      apply Hvisit in Hc; [|by do 2 apply Inv_record|].
      2:{ eapply pathOK_snoc; [done..|]. by exists i. }
      unfold visitPost in Hc. simpl in Hc. destruct r as [err|].
      * intros [= <-]. eapply errPost_prefix; [|exact Hc].
        by apply prefix_app_r.
      * destruct Hc as (Hinv1 & Hcl1 & Hpre1).
        intros Ho. apply IH in Ho; [|done|].
        2:{ intros j Hj. apply Hidx. by right. }
        unfold loopPost in *. destruct o.1 as [err|]; [done|].
        destruct Ho as (Hinv2 & Hpre2 & Hcl2).
        split_and!; [done|by etrans|].
        intros j c' [->|Hj]%elem_of_cons Hc'; [|by eauto].
        assert (c' = c) as -> by congruence.
        exact (Inv_closed_mono _ _ _ _ _ Hinv1 Hinv2 Hpre2 Hcl1).
    + intros [= <-]. unfold loopPost. simpl. right. by exists node, i.
Qed.

(** A visit entered under the invariant re-establishes it, or fails
    with an error of [errPost]. *)
Lemma dfsVisit_spec fuel node s path o :
  Inv np roots s path → pathOK np roots (path ++ [node]) →
  dfsVisit np fuel node s path = Some o →
  visitPost np roots s path node o.
Proof.
  revert node s path o.
  induction fuel as [|fuel IH]; intros node s path o Hinv Hok; simpl;
    [done|].
  destruct (traversalState s !!! ID np node) eqn:Hst.
  - set (s0 := record _ (record _ s)).
    assert (ID np node ∉ ID np <$> path) as Hfresh.
    { rewrite <-(inv_open _ _ _ _ Hinv). congruence. }
    destruct (visitChildren _ _ _ _ _ _) as [[r s1]|] eqn:Hc; [|done].
    apply visitChildren_spec in Hc.
    + unfold loopPost in Hc. simpl in Hc.
      destruct r as [err|]; intros [= <-]; unfold visitPost; simpl;
        [exact Hc|].
      destruct Hc as (Hinv1 & Hpre1 & Hcl1).
      split_and!.
      * apply Inv_close; [done..| |].
        { apply Hok. apply elem_of_app. right. by left. }
        intros c (i & Hi & Hch). eapply Hcl1; [|done].
        apply elem_of_seqZ. lia.
      * by rewrite lookup_total_insert_eq.
      * by apply prefix_app_r.
    + intros c s1' o1. apply IH.
    + apply (Inv_open s0); [by do 2 apply Inv_record|done].
    + done.
    + by rewrite last_snoc.
    + intros i Hi%elem_of_seqZ. lia.
  - intros [= <-]. unfold visitPost. simpl. left. exists path, node.
    split_and!; [done..|]. by apply (inv_open _ _ _ _ Hinv).
  - intros [= <-]. unfold visitPost. simpl.
    split_and!; [by do 2 apply Inv_record|done..].
Qed.

Lemma visitRoots_spec fuel graph s o :
  Inv np roots s [] →
  (∀ r, r ∈ graph → r ∈ roots) →
  visitRoots np fuel graph s = Some o →
  rootsPost np roots s graph o.
Proof.
  revert s. induction graph as [|node rest IH]; intros s Hinv Hsub; simpl.
  - intros [= <-]. unfold rootsPost. simpl. split_and!; [done..|].
    by intros r ?%elem_of_nil.
  - destruct (dfsVisit np fuel node s []) as [[r s1]|] eqn:Hd; [|done].
    apply dfsVisit_spec in Hd; [|done|].
    2:{ apply pathOK_root, Hsub. by left. }
    unfold visitPost in Hd. simpl in Hd. destruct r as [err|].
    + intros [= <-]. exists node. split; [by left|done].
    + destruct Hd as (Hinv1 & Hcl1 & Hpre1). intros Ho.
      apply IH in Ho; [|done|].
      2:{ intros r Hr. apply Hsub. by right. }
      unfold rootsPost in *. destruct o.1 as [err|].
      * destruct Ho as (r & Hr & Herr). exists r. split; [by right|done].
      * destruct Ho as (Hinv2 & Hpre2 & Hcl2).
        split_and!; [done|by etrans|].
        intros r [->|Hr]%elem_of_cons; [|by auto].
        exact (Inv_closed_mono _ _ _ _ _ Hinv1 Hinv2 Hpre2 Hcl1).
Qed.

End Invariant.

(** ** The result of a sort that succeeds *)

Section Sorted.

Context {V I E : Type} `{Countable I}.
Context (np : NodeProvider V I E) (roots : list V) (s : State V I).
Hypothesis Hinv : Inv np roots s [].
Hypothesis Hroots :
  ∀ r, r ∈ roots → traversalState s !!! ID np r = stateClosed.

(** A child stands before its parent. *)
Lemma sorted_order i j parent child :
  sorted s !! i = Some parent → sorted s !! j = Some child →
  edge np parent child → (j < i)%nat.
Proof.
  intros Hi Hj Hedge.
  pose proof (take_drop_middle _ _ _ Hi) as Hsplit. symmetry in Hsplit.
  pose proof (inv_order _ _ _ _ Hinv _ _ _ _ Hsplit Hedge) as Hin.
  apply list_elem_of_lookup in Hin as [k Hk].
  apply lookup_lt_Some in Hk as Hlt.
  rewrite length_fmap, length_take in Hlt.
  rewrite list_lookup_fmap, lookup_take_lt in Hk by lia.
  rewrite <-list_lookup_fmap in Hk.
  assert ((ID np <$> sorted s) !! j = Some (ID np child)) as Hj'.
  { by rewrite list_lookup_fmap, Hj. }
  pose proof (NoDup_lookup _ _ _ _ (inv_nodup _ _ _ _ Hinv) Hk Hj').
  lia.
Qed.

Hypothesis Hcons : consistent np roots.

Lemma sorted_complete v : reachable np roots v → v ∈ sorted s.
Proof.
  induction 1 as [r Hr|u c Hu IH Hedge].
  - pose proof (Hroots _ Hr) as Hin. apply (inv_closed _ _ _ _ Hinv) in Hin.
    apply list_elem_of_fmap in Hin as (r' & Hid & Hr').
    rewrite (Hcons r r'); [done|by constructor| |done].
    by apply (inv_reach _ _ _ _ Hinv).
  - apply list_elem_of_split in IH as (l1 & l2 & Hs).
    pose proof (inv_order _ _ _ _ Hinv _ _ _ _ Hs Hedge) as Hin.
    apply list_elem_of_fmap in Hin as (c' & Hid & Hc').
    assert (c' ∈ sorted s) as Hc's.
    { rewrite Hs. apply elem_of_app. by left. }
    rewrite (Hcons c c'); [done|by eapply reachable_child| |done].
    by apply (inv_reach _ _ _ _ Hinv).
Qed.

Lemma sorted_reachable v : v ∈ sorted s ↔ reachable np roots v.
Proof. split; [apply (inv_reach _ _ _ _ Hinv)|apply sorted_complete]. Qed.

Lemma sorted_NoDup : NoDup (sorted s).
Proof. eapply NoDup_fmap_1, (inv_nodup _ _ _ _ Hinv). Qed.

(** A descendant stands before its ancestor. *)
Lemma sorted_tc_order a b i :
  tc (edge np) a b → sorted s !! i = Some a →
  ∃ j, (j < i)%nat ∧ sorted s !! j = Some b.
Proof.
  intros Htc. revert i.
  assert (∀ a b i, edge np a b → sorted s !! i = Some a →
            ∃ j, (j < i)%nat ∧ sorted s !! j = Some b) as Hedge.
  { clear a b Htc. intros a b i Hedge Hi.
    assert (b ∈ sorted s) as [j Hj]%list_elem_of_lookup.
    { apply sorted_complete. eapply reachable_child; [|done].
      apply (inv_reach _ _ _ _ Hinv). by eapply list_elem_of_lookup_2. }
    exists j. split; [|done]. by eapply sorted_order. }
  induction Htc as [a b Hab|a x b Hax Hxb IH]; intros i Hi; [by eauto|].
  destruct (Hedge _ _ _ Hax Hi) as (k & Hk & Hx).
  destruct (IH _ Hx) as (j & Hj & Hb). exists j. split; [lia|done].
Qed.

(** So a sort that succeeds has met no cycle. *)
Lemma sorted_acyclic : acyclic np roots.
Proof.
  intros v [i Hi]%sorted_complete%list_elem_of_lookup Htc.
  destruct (sorted_tc_order _ _ _ Htc Hi) as (j & Hj & Hv).
  pose proof (NoDup_lookup _ _ _ _ sorted_NoDup Hi Hv). lia.
Qed.

End Sorted.

(** ** Success and failure of the whole sort *)

Section Whole.

Context {V I E : Type} `{Countable I}.
Context (np : NodeProvider V I E) (roots : list V).

Lemma chain_app_r (l1 l2 : list V) : chain np (l1 ++ l2) → chain np l2.
Proof.
  intros Hch k a b Ha Hb. apply (Hch (length l1 + k)%nat).
  - by rewrite lookup_app_r, Nat.add_comm, Nat.add_sub by lia.
  - rewrite lookup_app_r by lia.
    by replace (S (length l1 + k) - length l1)%nat with (S k) by lia.
Qed.

Lemma chain_tc a (p : list V) b :
  chain np (a :: p ++ [b]) → tc (edge np) a b.
Proof.
  revert a. induction p as [|x p IH]; intros a Hch.
  - apply tc_once. by apply (Hch O).
  - eapply tc_l; [by apply (Hch O)|]. apply IH.
    by apply (chain_app_r [a]).
Qed.

(** The path of a [CycleError] of [errPost] closes a cycle of the graph
    when identifiers tell vertices apart. *)
Lemma cycle_path_cycle pre node :
  consistent np roots →
  pathOK np roots (pre ++ [node]) →
  ID np node ∈ ID np <$> pre →
  reachable np roots node ∧ tc (edge np) node node.
Proof.
  intros Hcons [Hch Hre] (w & Hid & Hw)%list_elem_of_fmap.
  assert (reachable np roots node) as Hnode.
  { apply Hre, elem_of_app. right. by left. }
  split; [done|].
  assert (node = w) as <-.
  { apply Hcons; [done| |done]. apply Hre, elem_of_app. by left. }
  apply list_elem_of_split in Hw as (p1 & p2 & ->).
  rewrite <-app_assoc in Hch. apply chain_app_r in Hch.
  by apply (chain_tc _ p2).
Qed.

Lemma unvisited_init (U : gset I) :
  (size (unvisited U (initState (V:=V))) ≤ size U)%nat.
Proof. apply subseteq_size. by intros i [_ Hi]%elem_of_filter. Qed.

(** The loop over the roots of a finite graph returns. *)
Lemma visitRoots_returns (U : gset I) fuel :
  covers np roots U → (size U < fuel)%nat →
  ∃ r s, visitRoots np fuel roots initState = Some (r, s) ∧
         budget np roots U (length roots) initState s ∧
         rootsPost np roots initState roots (r, s).
Proof.
  intros HU Hfuel.
  destruct (visitRoots_terminates np roots U HU fuel roots initState)
    as (r & s & Hv & Hb); [done| |].
  { pose proof (unvisited_init U). lia. }
  exists r, s. split_and!; [done..|].
  eapply visitRoots_spec; [apply Inv_init|done..].
Qed.

(** On a finite, resolvable, consistent and acyclic graph it succeeds. *)
Lemma visitRoots_succeeds (U : gset I) fuel :
  covers np roots U → resolvable np roots →
  consistent np roots → acyclic np roots →
  (size U < fuel)%nat →
  ∃ s, visitRoots np fuel roots initState = Some (None, s) ∧
       Inv np roots s [] ∧
       ∀ r, r ∈ roots → traversalState s !!! ID np r = stateClosed.
Proof.
  intros HU Hres Hcons Hacyc Hfuel.
  destruct (visitRoots_returns U fuel HU Hfuel) as (r & s & Hv & _ & Hpost).
  unfold rootsPost in Hpost. simpl in Hpost. destruct r as [err|].
  - exfalso. destruct Hpost as (r & Hr & [Hcyc|Hfail]).
    + destruct Hcyc as (pre & node & _ & _ & Hok & Hid).
      destruct (cycle_path_cycle pre node Hcons Hok Hid) as [Hnode Htc].
      by apply (Hacyc node).
    + destruct Hfail as (v & i & Hv' & Hi & Hch).
      destruct (Hres v i Hv' Hi) as [c Hc]. congruence.
  - exists s. by destruct Hpost as (? & _ & ?).
Qed.

(** On a finite, resolvable and consistent graph with a cycle it fails
    with a [CycleError]. *)
Lemma visitRoots_detects (U : gset I) fuel v :
  covers np roots U → resolvable np roots → consistent np roots →
  reachable np roots v → tc (edge np) v v →
  (size U < fuel)%nat →
  ∃ path s, visitRoots np fuel roots initState
            = Some (Some (CycleError path), s).
Proof.
  intros HU Hres Hcons Hv Htc Hfuel.
  destruct (visitRoots_returns U fuel HU Hfuel) as (r & s & Hvr & _ & Hpost).
  unfold rootsPost in Hpost. simpl in Hpost. destruct r as [err|].
  - destruct Hpost as (r & Hr & [Hcyc|Hfail]).
    + destruct Hcyc as (pre & node & -> & _). eauto.
    + destruct Hfail as (u & i & Hu & Hi & Hch).
      destruct (Hres u i Hu Hi) as [c Hc]. congruence.
  - exfalso. destruct Hpost as (Hinv & _ & Hcl).
    by apply (sorted_acyclic np roots s Hinv Hcl Hcons v).
Qed.

End Whole.

(** ** Failures *)

Section Failure.

Context {V I E : Type} `{Countable I}.

Implicit Types (np : NodeProvider V I E) (s : State V I) (node : V).
Implicit Types (path graph roots more : list V).

Lemma visitRoots_app np fuel roots more s :
  visitRoots np fuel (roots ++ more) s
  = match visitRoots np fuel roots s with
    | Some (None, s') => visitRoots np fuel more s'
    | other => other
    end.
Proof.
  revert s. induction roots as [|node rest IH]; intros s; simpl; [done|].
  destruct (dfsVisit np fuel node s []) as [[[err|] s']|]; auto.
Qed.

(** C4. A failure of any kind (no provider, a cycle, a failed child
    lookup) leaves no result slice, and the roots after the failing one play
    no part: the sort of a longer root list returns the same error after
    the same provider calls. *)
Theorem TopSort_failure_aborts fuel (onp : option (NodeProvider V I E))
    roots more res err tr :
  TopSort fuel onp roots = Some (res, Some err, tr) →
  res = None ∧ TopSort fuel onp (roots ++ more) = Some (None, Some err, tr).
Proof.
  destruct onp as [np|]; simpl.
  - rewrite visitRoots_app.
    destruct (visitRoots np fuel roots initState) as [[[e|] s']|]; [|done..].
    by intros [= <- <- <-].
  - by intros [= <- <- <-].
Qed.

(** C5. Without a provider the sort fails at once with the error made by
    [errors.New], whatever the roots and with no provider call made. *)
Theorem TopSort_nil_provider fuel roots :
  TopSort (V:=V) (I:=I) (E:=E) fuel None roots
  = Some (None,
          Some (ErrorString "nodeProvider should be a valid reference"), []).
Proof. reflexivity. Qed.

(** C8. With a provider and no root the sort returns the empty slice and
    no error, and calls no provider method. *)
Theorem TopSort_no_roots fuel np :
  TopSort fuel (Some np) [] = Some (Some [], None, []).
Proof. reflexivity. Qed.

(** C6. If the log of a sort holds a child lookup that the provider
    failed with [e], the sort returns no slice and the error [e] itself,
    and that lookup is the last provider call made. *)
Theorem TopSort_lookup_failure fuel np roots res err tr v i e :
  TopSort fuel (Some np) roots = Some (res, err, tr) →
  CallChild v i ∈ tr →
  Child np v i = inr e →
  res = None ∧ err = Some e ∧ ∃ tr', tr = tr' ++ [CallChild v i].
Proof.
  intros Hts Hin Hch. simpl in Hts.
  destruct (visitRoots np fuel roots initState) as [[r s']|] eqn:Hr; [|done].
  apply visitRoots_trace in Hr as (t & Hc & Ht). simpl in Hc, Ht.
  assert (fatal np (CallChild v i) e) as Hf by done.
  destruct r as [err'|]; injection Hts as <- <- <-; rewrite Hc in Hin |- *.
  - destruct Ht as (t' & c & -> & Hok & He).
    apply elem_of_app in Hin as [Hin|Hin%list_elem_of_singleton].
    + eapply Forall_forall in Hok; [|done]. by destruct (Hok e).
    + subst c. simpl in He. split_and!; [done|congruence|eauto].
  - eapply Forall_forall in Ht; [|done]. by destruct (Ht e).
Qed.

(** The depth bound and the provider beyond what its methods return have
    no part in an outcome. When a run returns [r1], a run with a provider
    that agrees with the first on every argument returns [r1] too under
    every depth bound at least as large, and returns nothing else under
    any bound: the same slice, the same error, the same provider calls in
    the same order. *)
Lemma TopSort_deterministic np1 np2 roots fuel1 (r1 : result V E) :
  agree np1 np2 →
  TopSort fuel1 (Some np1) roots = Some r1 →
  (∀ fuel2, (fuel1 ≤ fuel2)%nat →
            TopSort fuel2 (Some np2) roots = Some r1) ∧
  (∀ fuel2 r2, TopSort fuel2 (Some np2) roots = Some r2 → r2 = r1).
Proof.
  intros Hag H1.
  assert (∀ fuel2, (fuel1 ≤ fuel2)%nat →
                   TopSort fuel2 (Some np2) roots = Some r1) as Hsame.
  { intros fuel2 Hle. apply (TopSort_fuel_mono _ fuel2) in H1; [|done].
    simpl in H1 |- *. by rewrite <-(visitRoots_agree np1 np2 _ _ _ Hag). }
  split; [done|]. intros fuel2 r2 H2.
  apply (TopSort_fuel_mono _ (fuel1 `max` fuel2)) in H2; [|lia].
  rewrite Hsame in H2 by lia. congruence.
Qed.

End Failure.

(** ** Order, coverage, cycles and termination *)

Section Sorting.

Context {V I E : Type} `{Countable I}.

Implicit Types (np : NodeProvider V I E) (s : State V I) (node : V).
Implicit Types (path roots : list V) (U : gset I).

Lemma lookup_new (m : gmap I tState) i : m !! i = None → m !!! i = stateNew.
Proof. intros Hm. by rewrite lookup_total_alt, Hm. Qed.

Lemma initState_new (i : I) :
  traversalState (initState (V:=V)) !!! i = stateNew.
Proof. by apply lookup_new. Qed.

(** The two guards and the opening step of [dfsVisit], as equations. *)
Lemma dfsVisit_reentry np fuel node s path :
  traversalState s !!! ID np node = stateOpen →
  dfsVisit np (S fuel) node s path
  = Some (Some (CycleError (path ++ [node])),
          record (Enter node stateOpen path) (record (CallID node) s)).
Proof. intros Hst. simpl. by rewrite Hst. Qed.

Lemma dfsVisit_fresh np fuel node s path :
  traversalState s !!! ID np node = stateNew →
  dfsVisit np (S fuel) node s path
  = match visitChildren np (dfsVisit np fuel) node (path ++ [node])
            (seqZ 0 (ChildCount np node))
            (setState (ID np node) stateOpen
               (record (Enter node stateNew path) (record (CallID node) s)))
    with
    | None => None
    | Some (Some err, s') => Some (Some err, s')
    | Some (None, s') =>
        Some (None, appendSorted node (setState (ID np node) stateClosed s'))
    end.
Proof. intros Hst. simpl. by rewrite Hst. Qed.

Lemma visitRoots_cons np fuel node rest s :
  visitRoots np fuel (node :: rest) s
  = match dfsVisit np fuel node s [] with
    | None => None
    | Some (Some err, s') => Some (Some err, s')
    | Some (None, s') => visitRoots np fuel rest s'
    end.
Proof. reflexivity. Qed.

Lemma visitChildren_one np visit node path i rest s c :
  Child np node i = inl c →
  visitChildren np visit node path (i :: rest) s
  = match visit c (record (CallChild node i)
                     (record (CallChildCount node) s)) path with
    | None => None
    | Some (Some err, s') => Some (Some err, s')
    | Some (None, s') => visitChildren np visit node path rest s'
    end.
Proof. intros Hc. simpl. by rewrite Hc. Qed.

(** C1. On an acyclic graph (finite, every child lookup succeeding,
    identifiers telling vertices apart, no vertex its own descendant) the
    sort succeeds, and every edge of the graph is in its result the right
    way round: for every reachable parent and every child of it, both are
    in the slice, the child at an index not above the parent's. Nor does
    any occurrence of a child stand after an occurrence of its parent. *)
Theorem TopSort_children_first np roots U fuel :
  covers np roots U → resolvable np roots →
  consistent np roots → acyclic np roots →
  (size U < fuel)%nat →
  ∃ res tr,
    TopSort fuel (Some np) roots = Some (Some res, None, tr) ∧
    (∀ parent child,
       reachable np roots parent → edge np parent child →
       ∃ i j, res !! i = Some parent ∧ res !! j = Some child ∧
              (j ≤ i)%nat) ∧
    (∀ i j parent child,
       res !! i = Some parent → res !! j = Some child →
       edge np parent child → (j ≤ i)%nat).
Proof.
  intros HU Hres Hcons Hacyc Hfuel.
  destruct (visitRoots_succeeds np roots U fuel HU Hres Hcons Hacyc Hfuel)
    as (s & Hv & Hinv & Hcl).
  exists (sorted s), (log s). simpl. rewrite Hv. split; [done|].
  assert (∀ i j parent child,
            sorted s !! i = Some parent → sorted s !! j = Some child →
            edge np parent child → (j ≤ i)%nat) as Hpos.
  { intros i j parent child Hi Hj Hedge.
    pose proof (sorted_order np roots s Hinv i j parent child Hi Hj Hedge).
    lia. }
  split; [|exact Hpos].
  intros parent child Hparent Hedge.
  assert (reachable np roots child) as Hchild
    by (by eapply reachable_child).
  apply (sorted_complete np roots s Hinv Hcl Hcons) in Hparent, Hchild.
  apply list_elem_of_lookup in Hparent as [i Hi].
  apply list_elem_of_lookup in Hchild as [j Hj].
  exists i, j. split_and!; [done..|]. by eapply Hpos.
Qed.

(** C2. On an acyclic graph the result of the sort holds the vertices
    reachable from the roots and no other, each once, whatever roots are
    repeated and whatever children are shared. *)
Theorem TopSort_exactly_reachable np roots U fuel :
  covers np roots U → resolvable np roots →
  consistent np roots → acyclic np roots →
  (size U < fuel)%nat →
  ∃ res tr,
    TopSort fuel (Some np) roots = Some (Some res, None, tr) ∧
    NoDup res ∧
    ∀ v, v ∈ res ↔ reachable np roots v.
Proof.
  intros HU Hres Hcons Hacyc Hfuel.
  destruct (visitRoots_succeeds np roots U fuel HU Hres Hcons Hacyc Hfuel)
    as (s & Hv & Hinv & Hcl).
  exists (sorted s), (log s). simpl. rewrite Hv. split_and!; [done| |].
  - by eapply sorted_NoDup.
  - by apply sorted_reachable.
Qed.

(** The sort of the triangle A -> B -> C -> A from A, whatever roots
    come after A. *)
Lemma triangle_CycleError np fuel A B C more :
  ID np A ≠ ID np B → ID np A ≠ ID np C → ID np B ≠ ID np C →
  ChildCount np A = 1 → Child np A 0 = inl B →
  ChildCount np B = 1 → Child np B 0 = inl C →
  ChildCount np C = 1 → Child np C 0 = inl A →
  (4 ≤ fuel)%nat →
  ∃ tr, TopSort fuel (Some np) (A :: more)
        = Some (None, Some (CycleError [A; B; C; A]), tr).
Proof.
  intros HAB HAC HBC HnA HcA HnB HcB HnC HcC Hfuel.
  eexists. apply (TopSort_fuel_mono 4); [done|].
  unfold TopSort. rewrite visitRoots_cons.
  rewrite dfsVisit_fresh by apply initState_new.
  rewrite HnA. change (seqZ 0 1) with [0].
  rewrite (visitChildren_one _ _ _ _ _ _ _ B) by done.
  rewrite dfsVisit_fresh.
  2:{ simpl. rewrite lookup_total_insert_ne by done.
      by apply lookup_new. }
  rewrite HnB. change (seqZ 0 1) with [0].
  rewrite (visitChildren_one _ _ _ _ _ _ _ C) by done.
  rewrite dfsVisit_fresh.
  2:{ simpl. rewrite !lookup_total_insert_ne by done.
      by apply lookup_new. }
  rewrite HnC. change (seqZ 0 1) with [0].
  rewrite (visitChildren_one _ _ _ _ _ _ _ A) by done.
  rewrite dfsVisit_reentry.
  2:{ simpl. rewrite !lookup_total_insert_ne by done.
      apply lookup_total_insert_eq. }
  reflexivity.
Qed.

(** C3. A visit that finds its identifier open makes the whole sort
    fail with a [CycleError] whose path is the path the visit received with
    its vertex appended, and nothing is done after it. So a vertex that
    is its own child, on a finite graph whose lookups succeed and whose
    identifiers tell vertices apart, makes the sort fail with a
    [CycleError]; and the triangle A -> B -> C -> A with A the first root
    fails with the path A, B, C, A. *)
Theorem TopSort_cycle_reported :
  (∀ np fuel roots res err tr node path,
     TopSort fuel (Some np) roots = Some (res, err, tr) →
     Enter node stateOpen path ∈ tr →
     res = None ∧ err = Some (CycleError (path ++ [node])) ∧
     ∃ tr', tr = tr' ++ [Enter node stateOpen path]) ∧
  (∀ np roots U fuel v,
     covers np roots U → resolvable np roots → consistent np roots →
     reachable np roots v → edge np v v →
     (size U < fuel)%nat →
     ∃ path tr,
       TopSort fuel (Some np) roots
       = Some (None, Some (CycleError path), tr)) ∧
  (∀ np fuel A B C more,
     ID np A ≠ ID np B → ID np A ≠ ID np C → ID np B ≠ ID np C →
     ChildCount np A = 1 → Child np A 0 = inl B →
     ChildCount np B = 1 → Child np B 0 = inl C →
     ChildCount np C = 1 → Child np C 0 = inl A →
     (4 ≤ fuel)%nat →
     ∃ tr, TopSort fuel (Some np) (A :: more)
           = Some (None, Some (CycleError [A; B; C; A]), tr)).
Proof.
  split_and!.
  - intros np fuel roots res err tr node path Hts Hin. simpl in Hts.
    destruct (visitRoots np fuel roots initState) as [[r s']|] eqn:Hr;
      [|done].
    apply visitRoots_trace in Hr as (t & Hc & Ht). simpl in Hc, Ht.
    assert (fatal np (Enter node stateOpen path)
              (CycleError (path ++ [node]))) as Hf by done.
    destruct r as [err'|]; injection Hts as <- <- <-; rewrite Hc in Hin |- *.
    + destruct Ht as (t' & ev & -> & Hok & He).
      apply elem_of_app in Hin as [Hin|Hin%list_elem_of_singleton].
      * eapply Forall_forall in Hok; [|done]. by destruct (Hok _ Hf).
      * subst ev. simpl in He. split_and!; [done|congruence|eauto].
    + eapply Forall_forall in Ht; [|done]. by destruct (Ht _ Hf).
  - intros np roots U fuel v HU Hres Hcons Hv Hedge Hfuel.
    destruct (visitRoots_detects np roots U fuel v HU Hres Hcons Hv
                (tc_once _ _ _ Hedge) Hfuel) as (path & s & Hvr).
    exists path, (log s). simpl. by rewrite Hvr.
  - apply triangle_CycleError.
Qed.

(** C9. A [CycleError] that the sort returns, and that no child lookup
    of the provider returned, has a path that starts at a root, goes from
    each vertex to a child of it, and ends on a vertex whose identifier is
    the identifier of a vertex earlier on the path. *)
Theorem TopSort_CycleError_path np fuel roots res p tr :
  TopSort fuel (Some np) roots = Some (res, Some (CycleError p), tr) →
  (∀ v i, Child np v i ≠ inr (CycleError p)) →
  ∃ pre node w,
    p = pre ++ [node] ∧ w ∈ pre ∧ ID np w = ID np node ∧
    chain np p ∧ ∃ r, r ∈ roots ∧ head p = Some r.
Proof.
  intros Hts Hprov. simpl in Hts.
  destruct (visitRoots np fuel roots initState) as [[r s]|] eqn:Hv; [|done].
  apply (visitRoots_spec np roots) in Hv; [|apply Inv_init|done].
  unfold rootsPost in Hv. simpl in Hv.
  destruct r as [err|]; [|done]. injection Hts as <- -> <-.
  destruct Hv as (r & Hr & [Hcyc|Hfail]).
  - destruct Hcyc as (pre & node & [= ->] & Hpre & [Hch _] & Hid).
    apply list_elem_of_fmap in Hid as (w & Hid & Hw).
    exists pre, node, w. split_and!; [done..|].
    exists r. split; [done|]. by destruct Hpre as [k ->].
  - destruct Hfail as (v & i & _ & _ & Hch). by destruct (Hprov v i).
Qed.

(** C10. On a graph whose reachable identifiers lie in a finite set [U]
    the sort returns, cyclic or not, as soon as the depth bound exceeds the
    size of [U]. No identifier goes from new to open twice; and when no
    reachable vertex has more than [B] children, [dfsVisit] is entered at
    most once per root and [B] times per identifier of [U]. *)
Theorem TopSort_terminates np roots U fuel :
  covers np roots U → (size U < fuel)%nat →
  ∃ res err tr,
    TopSort fuel (Some np) roots = Some (res, err, tr) ∧
    NoDup (opened np tr) ∧
    ∀ B : nat,
      (∀ v, reachable np roots v → ChildCount np v ≤ Z.of_nat B) →
      (entries tr ≤ length roots + B * size U)%nat.
Proof.
  intros HU Hfuel.
  destruct (visitRoots_returns np roots U fuel HU Hfuel)
    as (r & s & Hv & [_ Hb] & _).
  assert (∀ B : nat,
            (∀ v, reachable np roots v → ChildCount np v ≤ Z.of_nat B) →
            (entries (log s) ≤ length roots + B * size U)%nat) as Hbound.
  { intros B HB. specialize (Hb B HB). simpl in Hb.
    pose proof (unvisited_init (V:=V) U). nia. }
  destruct (visitRoots_openedOnce np _ _ _ _ _ Hv (openedOnce_init np))
    as [Hnd _].
  simpl. rewrite Hv. destruct r as [err|]; eauto 10.
Qed.

End Sorting.

(** ** Further properties of the sort *)

Section Further.

Context {V I E : Type} `{Countable I}.

Implicit Types (np : NodeProvider V I E) (s : State V I) (node : V).
Implicit Types (path roots more : list V) (U : gset I).

(** The result slice only grows, at its end. *)
Lemma visitChildren_sorted_prefix np
    (visit : V → State V I → list V → outcome V I E)
    node path indices s r s' :
  (∀ c s1 r1 s1', visit c s1 path = Some (r1, s1') →
                  sorted s1 `prefix_of` sorted s1') →
  visitChildren np visit node path indices s = Some (r, s') →
  sorted s `prefix_of` sorted s'.
Proof.
  intros Hv. revert s. induction indices as [|i rest IH]; intros s; simpl.
  - by intros [= _ <-].
  - destruct (Child np node i) as [c|err]; [|by intros [= _ <-]].
    destruct (visit c _ path) as [[[err|] s1]|] eqn:Hc; [| |done].
    + intros [= _ <-]. by apply Hv in Hc.
    + intros Ho. apply Hv in Hc. apply IH in Ho. by etrans.
Qed.

Lemma dfsVisit_sorted_prefix np fuel node s path r s' :
  dfsVisit np fuel node s path = Some (r, s') →
  sorted s `prefix_of` sorted s'.
Proof.
  revert node s path r s'.
  induction fuel as [|fuel IH]; intros node s path r s'; simpl; [done|].
  destruct (_ !!! _); [|by intros [= _ <-]..].
  destruct (visitChildren _ _ _ _ _ _) as [[r1 s1]|] eqn:Hc; [|done].
  apply visitChildren_sorted_prefix in Hc; [|by eauto].
  destruct r1 as [err|]; intros [= _ <-]; [done|].
  simpl in *. by apply prefix_app_r.
Qed.

Lemma visitRoots_sorted_prefix np fuel graph s r s' :
  visitRoots np fuel graph s = Some (r, s') →
  sorted s `prefix_of` sorted s'.
Proof.
  revert s. induction graph as [|node rest IH]; intros s; simpl.
  - by intros [= _ <-].
  - destruct (dfsVisit np fuel node s []) as [[[err|] s1]|] eqn:Hd;
      [| |done].
    + intros [= _ <-]. by eapply dfsVisit_sorted_prefix.
    + intros Ho. apply dfsVisit_sorted_prefix in Hd. apply IH in Ho.
      by etrans.
Qed.

(** What a successful loop over the roots leaves behind. *)
Lemma visitRoots_success np roots fuel s :
  visitRoots np fuel roots initState = Some (None, s) →
  Inv np roots s [] ∧
  ∀ r, r ∈ roots → traversalState s !!! ID np r = stateClosed.
Proof.
  intros Hv. apply (visitRoots_spec np roots) in Hv; [|apply Inv_init|done].
  by destruct Hv as (? & _ & ?).
Qed.

Lemma TopSort_success_inv np roots fuel res tr :
  TopSort fuel (Some np) roots = Some (Some res, None, tr) →
  ∃ s, visitRoots np fuel roots initState = Some (None, s) ∧
       res = sorted s ∧ tr = log s.
Proof.
  simpl. destruct (visitRoots np fuel roots initState) as [[[err|] s]|];
    [done| |done].
  intros [= <- <-]. by exists s.
Qed.

(** X1. Whatever the provider, a slice that the sort returns is an order of
    identifiers: none occurs twice, its vertices are reachable, the
    identifier of every root is in it, and the identifier of every child of
    a vertex in it stands strictly before that vertex. *)
Theorem TopSort_success_sound np roots fuel res tr :
  TopSort fuel (Some np) roots = Some (Some res, None, tr) →
  NoDup (ID np <$> res) ∧
  (∀ v, v ∈ res → reachable np roots v) ∧
  (∀ r, r ∈ roots → ID np r ∈ ID np <$> res) ∧
  (∀ i parent c,
     res !! i = Some parent → edge np parent c →
     ∃ j, (j < i)%nat ∧ (ID np <$> res) !! j = Some (ID np c)).
Proof.
  intros (s & Hv & -> & ->)%TopSort_success_inv.
  apply visitRoots_success in Hv as [Hinv Hcl].
  split_and!.
  - apply (inv_nodup _ _ _ _ Hinv).
  - apply (inv_reach _ _ _ _ Hinv).
  - intros r Hr. by apply (inv_closed _ _ _ _ Hinv), Hcl.
  - intros i parent c Hi Hedge.
    pose proof (take_drop_middle _ _ _ Hi) as Hsplit. symmetry in Hsplit.
    pose proof (inv_order _ _ _ _ Hinv _ _ _ _ Hsplit Hedge) as Hin.
    apply list_elem_of_lookup in Hin as [j Hj]. exists j.
    apply lookup_lt_Some in Hj as Hlt.
    rewrite length_fmap, length_take in Hlt. split; [lia|].
    rewrite list_lookup_fmap, lookup_take_lt in Hj by lia.
    by rewrite list_lookup_fmap.
Qed.

(** X2. A slice returned for a provider whose identifiers tell vertices apart
    certifies a directed acyclic graph: no reachable vertex is its own
    descendant, and the slice holds exactly the reachable vertices. *)
Theorem TopSort_success_acyclic np roots fuel res tr :
  TopSort fuel (Some np) roots = Some (Some res, None, tr) →
  consistent np roots →
  acyclic np roots ∧ ∀ v, v ∈ res ↔ reachable np roots v.
Proof.
  intros (s & Hv & -> & ->)%TopSort_success_inv Hcons.
  apply visitRoots_success in Hv as [Hinv Hcl]. split.
  - by apply (sorted_acyclic np roots s).
  - by apply sorted_reachable.
Qed.

(** X3. In a slice returned for a provider whose identifiers tell
    vertices apart, every descendant of a vertex of the slice, however
    far, stands strictly before it. *)
Theorem TopSort_descendants_first np roots fuel res tr i a b :
  TopSort fuel (Some np) roots = Some (Some res, None, tr) →
  consistent np roots →
  res !! i = Some a → tc (edge np) a b →
  ∃ j, (j < i)%nat ∧ res !! j = Some b.
Proof.
  intros (s & Hv & -> & ->)%TopSort_success_inv Hcons Hi Htc.
  apply visitRoots_success in Hv as [Hinv Hcl].
  by apply (sorted_tc_order np roots s Hinv Hcl Hcons a).
Qed.

(** X4. On a finite graph whose lookups succeed and whose identifiers tell
    vertices apart, the sort decides whether the graph has a cycle: it
    returns a [CycleError] exactly when some reachable vertex is its own
    descendant, and a slice exactly when none is. *)
Theorem TopSort_decides_cycles np roots U fuel :
  covers np roots U → resolvable np roots → consistent np roots →
  (size U < fuel)%nat →
  ((∃ p tr, TopSort fuel (Some np) roots
            = Some (None, Some (CycleError p), tr))
   ↔ ∃ v, reachable np roots v ∧ tc (edge np) v v) ∧
  ((∃ res tr, TopSort fuel (Some np) roots = Some (Some res, None, tr))
   ↔ acyclic np roots).
Proof.
  intros HU Hres Hcons Hfuel. split; split.
  - intros (p & tr & Hts). simpl in Hts.
    destruct (visitRoots np fuel roots initState) as [[[err|] s]|] eqn:Hv;
      [|done..].
    injection Hts as -> <-.
    apply (visitRoots_spec np roots) in Hv; [|apply Inv_init|done].
    destruct Hv as (r & Hr & [Hcyc|Hfail]).
    + destruct Hcyc as (pre & node & _ & _ & Hok & Hid). exists node.
      by apply (cycle_path_cycle np roots pre).
    + destruct Hfail as (v & i & Hv' & Hi & Hch).
      destruct (Hres v i Hv' Hi) as [c Hc]. congruence.
  - intros (v & Hv & Htc).
    destruct (visitRoots_detects np roots U fuel v HU Hres Hcons Hv Htc
                Hfuel) as (p & s & Hvr).
    exists p, (log s). simpl. by rewrite Hvr.
  - intros (res & tr & (s & Hv & -> & ->)%TopSort_success_inv).
    apply visitRoots_success in Hv as [Hinv Hcl].
    by apply (sorted_acyclic np roots s).
  - intros Hacyc.
    destruct (visitRoots_succeeds np roots U fuel HU Hres Hcons Hacyc Hfuel)
      as (s & Hv & _).
    exists (sorted s), (log s). simpl. by rewrite Hv.
Qed.

(** X5. Every failure of a sort that has a provider comes from the last
    event of its log, in one of two ways: a visit found its identifier
    open, and the error is the [CycleError] of its path, which prints
    "not a dag"; or the provider failed a child lookup, and the error is
    the provider's. The sort adds no error of its own making besides. *)
Theorem TopSort_failure_origin np roots fuel res err tr
    (callerText : E → string) :
  TopSort fuel (Some np) roots = Some (res, Some err, tr) →
  (∃ node path,
      last tr = Some (Enter node stateOpen path) ∧
      err = CycleError (path ++ [node]) ∧
      Error callerText err = "not a dag") ∨
  (∃ v i, last tr = Some (CallChild v i) ∧ Child np v i = inr err).
Proof.
  simpl. destruct (visitRoots np fuel roots initState) as [[r s]|] eqn:Hv;
    [|done].
  apply visitRoots_trace in Hv as (t & Hc & Ht). simpl in Hc, Ht.
  destruct r as [err'|]; [|done]. intros [= _ -> <-].
  destruct Ht as (t' & ev & -> & _ & Hf). rewrite Hc, last_snoc.
  destruct ev as [v|v|v i|v [] path]; try done.
  - right. by exists v, i.
  - left. exists v, path. simpl in Hf. by subst err.
Qed.

(** X6. Sorting more roots after a sort that succeeded extends it: the log
    of the first sort starts the log of the longer one, and its slice
    starts the slice of the longer one when that succeeds too. *)
Theorem TopSort_more_roots np roots more fuel res tr res' err' tr' :
  TopSort fuel (Some np) roots = Some (Some res, None, tr) →
  TopSort fuel (Some np) (roots ++ more) = Some (res', err', tr') →
  tr `prefix_of` tr' ∧ ∀ l, res' = Some l → res `prefix_of` l.
Proof.
  intros (s & Hv & -> & ->)%TopSort_success_inv. simpl.
  rewrite visitRoots_app, Hv.
  destruct (visitRoots np fuel more s) as [[r s']|] eqn:Hm; [|done].
  pose proof (visitRoots_sorted_prefix _ _ _ _ _ _ Hm) as Hpre.
  apply visitRoots_trace in Hm as (t & Hlog & _). simpl in Hlog.
  destruct r as [err|]; intros [= <- <- <-].
  - split; [by exists t|done].
  - split; [by exists t|]. by intros l [= <-].
Qed.

(** A visit of a vertex whose identifier is closed costs one [ID] call
    and changes neither the map nor the slice. *)
Lemma visitRoots_closed np fuel more s :
  (∀ r, r ∈ more → traversalState s !!! ID np r = stateClosed) →
  visitRoots np (S fuel) more s
  = Some (None,
          mkState (traversalState s) (sorted s)
            (log s ++ flat_map (λ r, [CallID r; Enter r stateClosed []])
                        more)).
Proof.
  revert s. induction more as [|r more IH]; intros s Hcl.
  - simpl. rewrite app_nil_r. by destruct s.
  - rewrite visitRoots_cons. simpl dfsVisit.
    rewrite (Hcl r) by (by left). rewrite IH.
    + simpl. by rewrite <-!app_assoc.
    + intros r' Hr'. apply Hcl. by right.
Qed.

(** X7. Roots whose identifiers are already in the slice of a sort add
    nothing to it: the longer sort returns the same slice, after one [ID]
    call per added root and no other provider call. *)
Theorem TopSort_known_roots np roots more fuel res tr :
  TopSort fuel (Some np) roots = Some (Some res, None, tr) →
  (∀ r, r ∈ more → ID np r ∈ ID np <$> res) →
  TopSort fuel (Some np) (roots ++ more)
  = Some (Some res, None,
          tr ++ flat_map (λ r, [CallID r; Enter r stateClosed []]) more).
Proof.
  intros (s & Hv & -> & ->)%TopSort_success_inv Hmore.
  pose proof (visitRoots_success _ _ _ _ Hv) as [Hinv _].
  simpl. rewrite visitRoots_app, Hv.
  destruct more as [|r more]; [simpl; by rewrite app_nil_r|].
  destruct fuel as [|fuel].
  { destruct roots as [|r0 roots]; [|done]. injection Hv as <-.
    specialize (Hmore r ltac:(by left)). by apply elem_of_nil in Hmore. }
  rewrite visitRoots_closed; [done|].
  intros r' Hr'. by apply (inv_closed _ _ _ _ Hinv), Hmore.
Qed.

(** X8. The slice of a sort that succeeds starts with the first root and
    what it reaches, the root last among them: the vertices before the
    first root are reachable from it alone. *)
Theorem TopSort_first_root np r more fuel res tr :
  TopSort fuel (Some np) (r :: more) = Some (Some res, None, tr) →
  ∃ l rest, res = l ++ r :: rest ∧ ∀ v, v ∈ l → reachable np [r] v.
Proof.
  intros (s & Hv & -> & ->)%TopSort_success_inv.
  rewrite visitRoots_cons in Hv.
  destruct (dfsVisit np fuel r initState []) as [[[err|] s1]|] eqn:Hd;
    [done| |done].
  apply visitRoots_sorted_prefix in Hv as [rest Hrest].
  pose proof Hd as Hspec.
  apply (dfsVisit_spec np [r]) in Hspec;
    [|apply Inv_init|apply pathOK_root; by left].
  destruct Hspec as (Hinv & _ & _). simpl in Hinv.
  destruct fuel as [|fuel]; [done|].
  rewrite dfsVisit_fresh in Hd by apply initState_new.
  destruct (visitChildren _ _ _ _ _ _) as [[[err|] s2]|]; [done| |done].
  injection Hd as <-. simpl in *.
  exists (sorted s2), rest. split; [by rewrite Hrest, <-app_assoc|].
  intros v Hv'. apply (inv_reach _ _ _ _ Hinv). simpl.
  apply elem_of_app. by left.
Qed.

Lemma Forall_record (P : Event V → Prop) ev s :
  Forall P (log s) → P ev → Forall P (log (record ev s)).
Proof. intros Hs Hev. simpl. apply Forall_app. by repeat constructor. Qed.

(** The events of a visit of a reachable vertex keep to the contract. *)
Lemma visitChildren_inContract np roots
    (visit : V → State V I → list V → outcome V I E)
    node path indices s r s' :
  (∀ c s1 r1 s1', reachable np roots c →
     visit c s1 path = Some (r1, s1') →
     Forall (inContract np roots) (log s1) →
     Forall (inContract np roots) (log s1')) →
  reachable np roots node →
  (∀ i, i ∈ indices → 0 ≤ i < ChildCount np node) →
  visitChildren np visit node path indices s = Some (r, s') →
  Forall (inContract np roots) (log s) →
  Forall (inContract np roots) (log s').
Proof.
  intros Hv Hnode. revert s.
  induction indices as [|i rest IH]; intros s Hidx; simpl.
  - intros [= _ <-] Hs. by apply Forall_record.
  - intros Ho Hs.
    assert (0 ≤ i < ChildCount np node) as Hi by (apply Hidx; by left).
    assert (Forall (inContract np roots)
              (log (record (CallChild node i)
                      (record (CallChildCount node) s)))) as Hs0.
    { apply Forall_record; [by apply Forall_record|done]. }
    destruct (Child np node i) as [c|err] eqn:Hch;
      [|by injection Ho as _ <-].
    assert (reachable np roots c) as Hc.
    { eapply reachable_child; [done|]. by exists i. }
    destruct (visit c _ path) as [[[err|] s1]|] eqn:Hvc; [| |done].
    + injection Ho as _ <-. by eapply Hv.
    + eapply IH; [|done|by eapply Hv]. intros j Hj. apply Hidx. by right.
Qed.

Lemma dfsVisit_inContract np roots fuel node s path r s' :
  reachable np roots node →
  dfsVisit np fuel node s path = Some (r, s') →
  Forall (inContract np roots) (log s) →
  Forall (inContract np roots) (log s').
Proof.
  revert node s path r s'.
  induction fuel as [|fuel IH]; intros node s path r s' Hnode; simpl;
    [done|].
  intros Ho Hs.
  assert (∀ st, Forall (inContract np roots)
            (log (record (Enter node st path) (record (CallID node) s))))
    as Hs0.
  { intros st. apply Forall_record; [by apply Forall_record|done]. }
  destruct (_ !!! _); [|by injection Ho as _ <-..].
  destruct (visitChildren _ _ _ _ _ _) as [[r1 s1]|] eqn:Hc; [|done].
  eapply (visitChildren_inContract np roots) in Hc;
    [|by eauto|done| |apply (Hs0 stateNew)].
  - by destruct r1 as [err|]; injection Ho as _ <-.
  - intros i Hi%elem_of_seqZ. lia.
Qed.

(** X9. The sort keeps to the provider's contract: it hands the provider
    only the roots and vertices that [Child] returned for a vertex handed
    before, and asks for a child only at an index from [0] up to, not
    including, the [ChildCount] of the vertex. A vertex whose [ChildCount]
    is zero or negative is never asked for a child. *)
Theorem TopSort_keeps_contract np roots fuel res err tr :
  TopSort fuel (Some np) roots = Some (res, err, tr) →
  Forall (inContract np roots) tr.
Proof.
  simpl. destruct (visitRoots np fuel roots initState) as [[r s]|] eqn:Hv;
    [|done].
  intros Hts. assert (tr = log s) as ->.
  { by destruct r; injection Hts as _ _ <-. }
  clear Hts.
  assert (∀ graph s0,
            (∀ x, x ∈ graph → x ∈ roots) →
            visitRoots np fuel graph s0 = Some (r, s) →
            Forall (inContract np roots) (log s0) →
            Forall (inContract np roots) (log s)) as Hgen.
  { clear Hv. induction graph as [|node rest IH]; intros s0 Hsub; simpl.
    - by intros [= _ <-].
    - destruct (dfsVisit np fuel node s0 []) as [[[e|] s1]|] eqn:Hd;
        [| |done]; intros Ho Hs0.
      + injection Ho as _ <-.
        eapply dfsVisit_inContract; [|done..].
        apply reachable_root, Hsub. by left.
      + eapply IH; [|done|].
        * intros x Hx. apply Hsub. by right.
        * eapply dfsVisit_inContract; [|done..].
          apply reachable_root, Hsub. by left. }
  eapply Hgen; [|done|constructor]. done.
Qed.

(** Every visit is entered below a simple branch. *)
Lemma visitChildren_branches np roots fuel node path indices s r s' :
  (∀ c s1 r1 s1',
     Inv np roots s1 path → pathOK np roots (path ++ [c]) →
     dfsVisit np fuel c s1 path = Some (r1, s1') →
     Forall (simpleBranch np roots) (log s1) →
     Forall (simpleBranch np roots) (log s1')) →
  Inv np roots s path → pathOK np roots path → last path = Some node →
  (∀ i, i ∈ indices → 0 ≤ i < ChildCount np node) →
  visitChildren np (dfsVisit np fuel) node path indices s = Some (r, s') →
  Forall (simpleBranch np roots) (log s) →
  Forall (simpleBranch np roots) (log s').
Proof.
  intros Hv. revert s.
  induction indices as [|i rest IH]; intros s Hinv Hok Hlast Hidx; simpl.
  - intros [= _ <-] Hs. by apply Forall_record.
  - intros Ho Hs.
    assert (0 ≤ i < ChildCount np node) as Hi by (apply Hidx; by left).
    set (s0 := record (CallChild node i) (record (CallChildCount node) s))
      in *.
    assert (Forall (simpleBranch np roots) (log s0)) as Hs0.
    { apply Forall_record; [by apply Forall_record|done]. }
    assert (Inv np roots s0 path) as Hinv0 by (by do 2 apply Inv_record).
    destruct (Child np node i) as [c|err] eqn:Hch;
      [|by injection Ho as _ <-].
    assert (pathOK np roots (path ++ [c])) as Hokc.
    { eapply pathOK_snoc; [done..|]. by exists i. }
    destruct (dfsVisit np fuel c s0 path) as [[[err|] s1]|] eqn:Hvc;
      [| |done].
    + injection Ho as _ <-. exact (Hv c s0 _ _ Hinv0 Hokc Hvc Hs0).
    + pose proof (dfsVisit_spec np roots _ _ _ _ _ Hinv0 Hokc Hvc)
        as (Hinv1 & _ & _). simpl in Hinv1.
      eapply (IH s1); [done..| |done|].
      * intros j Hj. apply Hidx. by right.
      * exact (Hv c s0 _ _ Hinv0 Hokc Hvc Hs0).
Qed.

Lemma dfsVisit_branches np roots fuel node s path r s' :
  Inv np roots s path → pathOK np roots (path ++ [node]) →
  NoDup (ID np <$> path) →
  dfsVisit np fuel node s path = Some (r, s') →
  Forall (simpleBranch np roots) (log s) →
  Forall (simpleBranch np roots) (log s').
Proof.
  revert node s path r s'.
  induction fuel as [|fuel IH]; intros node s path r s' Hinv Hok Hnd; simpl;
    [done|].
  intros Ho Hs.
  assert (Forall (simpleBranch np roots)
            (log (record (Enter node (traversalState s !!! ID np node) path)
                    (record (CallID node) s)))) as Hs0.
  { apply Forall_record; [by apply Forall_record|].
    split_and!; [done..|]. apply (inv_open _ _ _ _ Hinv). }
  destruct (traversalState s !!! ID np node) eqn:Hst;
    [|by injection Ho as _ <-..].
  destruct (visitChildren _ _ _ _ _ _) as [[r1 s1]|] eqn:Hc; [|done].
  assert (NoDup (ID np <$> path ++ [node])) as Hnd1.
  { rewrite fmap_app. apply NoDup_app. split_and!; [done| |].
    - intros i Hi ->%list_elem_of_singleton.
      apply (inv_open _ _ _ _ Hinv) in Hi. congruence.
    - apply NoDup_singleton. }
  eapply (visitChildren_branches np roots) in Hc.
  - by destruct r1 as [err|]; injection Ho as _ <-.
  - intros c s2 r2 s2' Hinv2 Hok2. by apply IH.
  - apply (Inv_open np roots (record (Enter node stateNew path)
                                (record (CallID node) s)));
      [by do 2 apply Inv_record|done].
  - done.
  - by rewrite last_snoc.
  - intros i Hi%elem_of_seqZ. lia.
  - exact Hs0.
Qed.

Lemma visitRoots_branches np roots fuel graph s r s' :
  Inv np roots s [] → (∀ x, x ∈ graph → x ∈ roots) →
  visitRoots np fuel graph s = Some (r, s') →
  Forall (simpleBranch np roots) (log s) →
  Forall (simpleBranch np roots) (log s').
Proof.
  revert s. induction graph as [|node rest IH]; intros s Hinv Hsub; simpl.
  - by intros [= _ <-].
  - assert (pathOK np roots ([] ++ [node])) as Hok.
    { apply pathOK_root, Hsub. by left. }
    destruct (dfsVisit np fuel node s []) as [[[err|] s1]|] eqn:Hd;
      [| |done]; intros Ho Hs.
    + injection Ho as _ <-.
      exact (dfsVisit_branches np roots _ _ _ _ _ _ Hinv Hok
               (NoDup_nil_2 (A:=I)) Hd Hs).
    + pose proof (dfsVisit_spec np roots _ _ _ _ _ Hinv Hok Hd)
        as (Hinv1 & _ & _). simpl in Hinv1.
      eapply (IH s1); [done| |done|].
      * intros x Hx. apply Hsub. by right.
      * exact (dfsVisit_branches np roots _ _ _ _ _ _ Hinv Hok
                 (NoDup_nil_2 (A:=I)) Hd Hs).
Qed.

Lemma TopSort_branches np roots fuel res err tr :
  TopSort fuel (Some np) roots = Some (res, err, tr) →
  Forall (simpleBranch np roots) tr.
Proof.
  simpl. destruct (visitRoots np fuel roots initState) as [[r s]|] eqn:Hv;
    [|done].
  intros Hts. assert (tr = log s) as ->.
  { by destruct r; injection Hts as _ _ <-. }
  eapply visitRoots_branches; [apply Inv_init|done|done|constructor].
Qed.

(** X10. The recursion is never deeper than the graph has identifiers: on a
    graph whose reachable identifiers lie in [U], the path that a visit
    receives is no longer than [size U], and shorter when the visit finds
    its identifier new, so that no more than [size U] visits are ever
    under way. *)
Theorem TopSort_depth_bound np roots U fuel res err tr v st path :
  covers np roots U →
  TopSort fuel (Some np) roots = Some (res, err, tr) →
  Enter v st path ∈ tr →
  (length path ≤ size U)%nat ∧
  (st = stateNew → length path < size U)%nat.
Proof.
  intros HU Hts Hin. apply TopSort_branches in Hts.
  eapply Forall_forall in Hts; [|done].
  destruct Hts as (Hnd & [_ Hre] & Hopen).
  assert (∀ l : list V, NoDup (ID np <$> l) →
            (∀ w, w ∈ l → reachable np roots w) →
            (length l ≤ size U)%nat) as Hlen.
  { intros l Hl Hreach. rewrite <-(length_fmap (ID np)).
    rewrite <-(size_list_to_set (C:=gset I)) by done.
    apply subseteq_size. intros i Hi%elem_of_list_to_set.
    apply list_elem_of_fmap in Hi as (w & -> & Hw). by apply HU, Hreach. }
  split.
  - apply Hlen; [done|]. intros w Hw. apply Hre, elem_of_app. by left.
  - intros ->. specialize (Hlen (path ++ [v])).
    rewrite length_app in Hlen. simpl in Hlen.
    enough (length path + 1 ≤ size U)%nat by lia.
    apply Hlen; [|done]. rewrite fmap_app. apply NoDup_app.
    split_and!; [done| |apply NoDup_singleton].
    intros i Hi ->%list_elem_of_singleton. by apply Hopen in Hi.
Qed.

(** X11. The path of a [CycleError] made by the sort is a lasso: a simple
    branch, then the one vertex whose identifier is already on the
    branch. Before that last vertex no identifier occurs twice. *)
Theorem TopSort_CycleError_lasso np roots fuel res p tr :
  TopSort fuel (Some np) roots = Some (res, Some (CycleError p), tr) →
  (∀ v i, Child np v i ≠ inr (CycleError p)) →
  ∃ p1 w p2 node,
    p = p1 ++ w :: p2 ++ [node] ∧ ID np w = ID np node ∧
    NoDup (ID np <$> p1 ++ w :: p2).
Proof.
  intros Hts Hprov. pose proof (TopSort_branches _ _ _ _ _ _ Hts) as Hbr.
  simpl in Hts.
  destruct (visitRoots np fuel roots initState) as [[[err|] s]|] eqn:Hv;
    [|done..].
  injection Hts as _ -> <-.
  apply visitRoots_trace in Hv as (t & Hlog & t' & ev & -> & _ & Hf).
  simpl in Hlog, Hf. rewrite Hlog in Hbr.
  apply Forall_app in Hbr as [_ Hbr]. rewrite Forall_singleton in Hbr.
  destruct ev as [v|v|v i|v [] path]; try done.
  { by destruct (Hprov v i). }
  simpl in Hf, Hbr. injection Hf as ->. destruct Hbr as (Hnd & _ & Hopen).
  destruct Hopen as [Hin _]. specialize (Hin eq_refl).
  apply list_elem_of_fmap in Hin as (w & Hid & Hw).
  apply list_elem_of_split in Hw as (p1 & p2 & ->).
  exists p1, w, p2, v. split_and!; [by rewrite <-app_assoc|done|done].
Qed.

(** No child is looked up twice. *)
Lemma lookups_snoc (l : list (Event V)) ev :
  lookups (l ++ [ev])
  = lookups l ++ from_option (λ x, [x]) [] (lookup_of ev).
Proof.
  unfold lookups. rewrite omap_app. simpl. by destruct (lookup_of ev).
Qed.

Lemma freshLookups_refl np s : freshLookups np s s.
Proof.
  exists []. rewrite app_nil_r.
  split_and!; [done|apply NoDup_nil_2| |by intros ??].
  by intros v i ?%elem_of_nil.
Qed.

Lemma freshLookups_record np ev s :
  lookup_of ev = None → freshLookups np s (record ev s).
Proof.
  intros Hev. exists [ev]. split_and!; [done| | |by intros ??].
  - unfold lookups. simpl. rewrite Hev. constructor.
  - unfold lookups. simpl. rewrite Hev. by intros v i ?%elem_of_nil.
Qed.

Lemma freshLookups_trans np s s1 s2 :
  freshLookups np s s1 → freshLookups np s1 s2 → freshLookups np s s2.
Proof.
  intros (t1 & Hl1 & Hnd1 & Hf1 & Hk1) (t2 & Hl2 & Hnd2 & Hf2 & Hk2).
  exists (t1 ++ t2). unfold lookups in *. rewrite omap_app.
  split_and!.
  - by rewrite Hl2, Hl1, app_assoc.
  - apply NoDup_app. split_and!; [done| |done].
    intros [v i] Hin1 Hin2. apply Hf1 in Hin1 as [_ Hin1].
    apply Hf2 in Hin2 as [Hin2 _]. done.
  - intros v i [Hin|Hin]%elem_of_app.
    + apply Hf1 in Hin as [Hnew Hold]. split; [done|]. by apply Hk2.
    + apply Hf2 in Hin as [Hnew Hold]. split; [|done].
      destruct (traversalState s !!! ID np v) eqn:Hst; [done|..];
        exfalso; apply (Hk1 (ID np v)); congruence.
  - intros id Hid. by apply Hk2, Hk1.
Qed.

Lemma visitChildren_lookups np
    (visit : V → State V I → list V → outcome V I E)
    node path indices s r s' :
  (∀ c s1 r1 s1', visit c s1 path = Some (r1, s1') →
                  freshLookups np s1 s1') →
  traversalState s !!! ID np node ≠ stateNew →
  NoDup indices →
  visitChildren np visit node path indices s = Some (r, s') →
  loopLookups np node indices s s'.
Proof.
  intros Hv. revert s.
  induction indices as [|i rest IH]; intros s Hnode Hnd; simpl.
  - intros [= _ <-]. exists [CallChildCount node].
    split_and!; [done|apply NoDup_nil_2| |by intros ??].
    by intros v i ?%elem_of_nil.
  - apply NoDup_cons in Hnd as [Hi Hnd].
    set (s0 := record (CallChild node i) (record (CallChildCount node) s)).
    assert (loopLookups np node (i :: rest) s s0) as H0.
    { exists [CallChildCount node; CallChild node i].
      split_and!; [by simpl; rewrite <-app_assoc|apply NoDup_singleton|
                   |by intros ??].
      intros v j [= -> ->]%list_elem_of_singleton.
      split; [left; split; [done|by left]|done]. }
    assert (∀ s1 s2,
              freshLookups np s0 s1 → loopLookups np node rest s1 s2 →
              loopLookups np node (i :: rest) s s2) as Hjoin.
    { intros s1 s2 (t1 & Hl1 & Hnd1 & Hf1 & Hk1)
        (t2 & Hl2 & Hnd2 & Hf2 & Hk2).
      exists ([CallChildCount node; CallChild node i] ++ t1 ++ t2).
      assert (traversalState s1 !!! ID np node ≠ stateNew) as Hnode1
        by (by apply Hk1).
      unfold lookups in *. rewrite !omap_app. simpl.
      split_and!.
      - rewrite Hl2, Hl1. simpl. by rewrite <-!app_assoc.
      - apply NoDup_cons. split.
        + intros [Hin|Hin]%elem_of_app.
          * by apply Hf1 in Hin as [Hin _].
          * apply Hf2 in Hin as [[[_ Hin]|Hin] _]; done.
        + apply NoDup_app. split_and!; [done| |done].
          intros [v j] Hin1 Hin2. apply Hf1 in Hin1 as [Hn1 Ho1].
          apply Hf2 in Hin2 as [[[-> _]|Hin2] _]; done.
      - intros v j [[= -> ->]|Hin]%elem_of_cons;
          [|apply elem_of_app in Hin as [Hin|Hin]].
        + split; [left; split; [done|by left]|]. by apply Hk2.
        + apply Hf1 in Hin as [Hnew Hold]. split; [by right|].
          by apply Hk2.
        + apply Hf2 in Hin as [[[-> Hj]|Hnew] Hold].
          * split; [left; split; [done|by right]|done].
          * split; [right|done].
            destruct (traversalState s !!! ID np v) eqn:Hst; [done|..];
              exfalso; apply (Hk1 (ID np v)); simpl; congruence.
      - intros id Hid. by apply Hk2, Hk1. }
    destruct (Child np node i) as [c|err]; [|by intros [= _ <-]].
    destruct (visit c s0 path) as [[[err|] s1]|] eqn:Hc; [| |done].
    + intros [= _ <-]. apply Hv in Hc.
      apply (Hjoin s1 s1); [done|].
      exists []. rewrite app_nil_r.
      split_and!; [done|apply NoDup_nil_2| |by intros ??].
      by intros v j ?%elem_of_nil.
    + intros Ho. apply Hv in Hc. apply (Hjoin s1 s'); [done|].
      apply IH; [|done..]. destruct Hc as (_ & _ & _ & _ & Hk).
      by apply Hk.
Qed.

Lemma dfsVisit_lookups np fuel node s path r s' :
  dfsVisit np fuel node s path = Some (r, s') → freshLookups np s s'.
Proof.
  revert node s path r s'.
  induction fuel as [|fuel IH]; intros node s path r s'; simpl; [done|].
  set (s0 := record (Enter node _ path) (record (CallID node) s)).
  assert (freshLookups np s s0) as H0.
  { eapply freshLookups_trans; by apply freshLookups_record. }
  destruct (traversalState s !!! ID np node) eqn:Hst;
    [|by intros [= _ <-]..].
  destruct (visitChildren _ _ _ _ _ _) as [[r1 s1]|] eqn:Hc; [|done].
  apply visitChildren_lookups in Hc; [|by eauto| |apply NoDup_seqZ].
  2:{ simpl. by rewrite lookup_total_insert_eq. }
  destruct Hc as (t & Hl & Hnd & Hf & Hk).
  assert (keepsOpened s s1) as Hks.
  { intros id Hid. apply Hk. simpl.
    destruct (decide (id = ID np node)) as [->|Hne]; [done|].
    by rewrite lookup_total_insert_ne. }
  assert (∀ v i, (v, i) ∈ lookups t →
            traversalState s !!! ID np v = stateNew) as Hnew.
  { intros v i Hin. apply Hf in Hin as [[[-> _]|Hin] _]; [done|].
    simpl in Hin. destruct (decide (ID np v = ID np node)) as [->|Hne];
      [done|]. by rewrite lookup_total_insert_ne in Hin. }
  assert (freshLookups np s s1) as H1.
  { exists ([CallID node; Enter node stateNew path] ++ t).
    split_and!; [|done| |done].
    - rewrite Hl. simpl. by rewrite <-!app_assoc.
    - intros v i Hin. split; [by eapply Hnew|].
      by apply Hf in Hin as [_ ?]. }
  destruct r1 as [err|]; intros [= _ <-]; [done|].
  destruct H1 as (t1 & Hl1 & Hnd1 & Hf1 & Hk1). exists t1.
  assert (keepsOpened s1
            (appendSorted node (setState (ID np node) stateClosed s1)))
    as Hclose.
  { intros id Hid. simpl.
    destruct (decide (id = ID np node)) as [->|Hne].
    - by rewrite lookup_total_insert_eq.
    - by rewrite lookup_total_insert_ne. }
  split_and!; [done..| |].
  - intros v i Hin. apply Hf1 in Hin as [? ?]. split; [done|].
    by apply Hclose.
  - intros id Hid. by apply Hclose, Hk1.
Qed.

Lemma visitRoots_lookups np fuel graph s r s' :
  visitRoots np fuel graph s = Some (r, s') → freshLookups np s s'.
Proof.
  revert s. induction graph as [|node rest IH]; intros s; simpl.
  - intros [= _ <-]. apply freshLookups_refl.
  - destruct (dfsVisit np fuel node s []) as [[[err|] s1]|] eqn:Hd;
      [| |done].
    + intros [= _ <-]. by eapply dfsVisit_lookups.
    + intros Ho. eapply freshLookups_trans; [by eapply dfsVisit_lookups|].
      by apply IH.
Qed.

(** X12. In one sort the provider is asked at most once for the child of a
    vertex at an index, whatever the graph and however the sort ends. *)
Theorem TopSort_lookups_once np roots fuel res err tr :
  TopSort fuel (Some np) roots = Some (res, err, tr) →
  NoDup (lookups tr).
Proof.
  simpl. destruct (visitRoots np fuel roots initState) as [[r s]|] eqn:Hv;
    [|done].
  intros Hts. assert (tr = log s) as ->.
  { by destruct r; injection Hts as _ _ <-. }
  apply visitRoots_lookups in Hv as (t & Hl & Hnd & _). simpl in Hl.
  by rewrite Hl.
Qed.

(** X13. The vertices that a successful sort returns do not depend on the
    order or the repetition of the roots, for a provider whose identifiers
    tell vertices apart: two sorts from the same set of roots return the
    same vertices, in possibly different orders. *)
Theorem TopSort_roots_order np roots1 roots2 fuel1 fuel2 res1 tr1 res2 tr2 :
  consistent np roots1 →
  (∀ r, r ∈ roots1 ↔ r ∈ roots2) →
  TopSort fuel1 (Some np) roots1 = Some (Some res1, None, tr1) →
  TopSort fuel2 (Some np) roots2 = Some (Some res2, None, tr2) →
  res1 ≡ₚ res2.
Proof.
  intros Hcons Hsame (s1 & Hv1 & -> & ->)%TopSort_success_inv
    (s2 & Hv2 & -> & ->)%TopSort_success_inv.
  assert (∀ v, reachable np roots1 v ↔ reachable np roots2 v) as Hreach.
  { intros v. split; induction 1 as [r Hr|u c _ IH Hedge];
      first [by apply reachable_root, Hsame
            |by eapply reachable_child]. }
  assert (consistent np roots2) as Hcons2.
  { intros u v Hu Hv. apply Hcons; by apply Hreach. }
  apply visitRoots_success in Hv1 as [Hinv1 Hcl1].
  apply visitRoots_success in Hv2 as [Hinv2 Hcl2].
  apply NoDup_Permutation.
  - by eapply sorted_NoDup.
  - by eapply sorted_NoDup.
  - intros v.
    rewrite (sorted_reachable np roots1 s1 Hinv1 Hcl1 Hcons).
    rewrite (sorted_reachable np roots2 s2 Hinv2 Hcl2 Hcons2).
    apply Hreach.
Qed.

(** The outcome depends on the provider only where the sort can come. *)
Lemma visitChildren_agreeOn np1 np2 roots
    (visit1 visit2 : V → State V I → list V → outcome V I E)
    node path indices s :
  agreeOn np1 np2 roots →
  (∀ c s', reachable np1 roots c → visit1 c s' path = visit2 c s' path) →
  reachable np1 roots node →
  (∀ i, i ∈ indices → 0 ≤ i < ChildCount np1 node) →
  visitChildren np1 visit1 node path indices s
  = visitChildren np2 visit2 node path indices s.
Proof.
  intros Hag Hv Hnode. revert s.
  induction indices as [|i rest IH]; intros s Hidx; simpl; [done|].
  assert (0 ≤ i < ChildCount np1 node) as Hi by (apply Hidx; by left).
  destruct (Hag node Hnode) as (_ & _ & Hch). rewrite <-(Hch i Hi).
  destruct (Child np1 node i) as [c|err] eqn:Hc; [|done].
  rewrite <-Hv by (eapply reachable_child; [done|by exists i]).
  destruct (visit1 c _ path) as [[[err|] s']|]; [done| |done].
  apply IH. intros j Hj. apply Hidx. by right.
Qed.

Lemma dfsVisit_agreeOn np1 np2 roots fuel node s path :
  agreeOn np1 np2 roots → reachable np1 roots node →
  dfsVisit np1 fuel node s path = dfsVisit np2 fuel node s path.
Proof.
  intros Hag. revert node s path.
  induction fuel as [|fuel IH]; intros node s path Hnode; simpl; [done|].
  destruct (Hag node Hnode) as (Hid & Hcnt & _). rewrite <-Hid, <-Hcnt.
  destruct (_ !!! _); [|done..].
  rewrite (visitChildren_agreeOn np1 np2 roots (dfsVisit np1 fuel)
             (dfsVisit np2 fuel)); [done..| |done|].
  - intros c s'. apply IH.
  - intros i Hi%elem_of_seqZ. lia.
Qed.

(** X14. What the provider says of vertices that cannot be reached from the
    roots, or of children at indices out of range, has no part in a
    sort: two providers that agree elsewhere give the same outcome. *)
Theorem TopSort_local np1 np2 roots fuel :
  agreeOn np1 np2 roots →
  TopSort fuel (Some np1) roots = TopSort fuel (Some np2) roots.
Proof.
  intros Hag. simpl.
  enough (∀ graph s, (∀ x, x ∈ graph → x ∈ roots) →
            visitRoots np1 fuel graph s = visitRoots np2 fuel graph s)
    as -> by done.
  induction graph as [|node rest IH]; intros s Hsub; simpl; [done|].
  rewrite (dfsVisit_agreeOn np1 np2 roots) by
    (done || apply reachable_root, Hsub; by left).
  destruct (dfsVisit np2 fuel node s []) as [[[err|] s']|]; [done| |done].
  apply IH. intros x Hx. apply Hsub. by right.
Qed.

End Further.

(** ** Invocations in one store, and the order of the result *)

Section Invocations.

Context {V I E : Type} `{Countable I}.

Implicit Types (np : NodeProvider V I E) (s : State V I) (node : V).
Implicit Types (path roots : list V) (σ : Store V I).

Lemma readMap_view σ s id :
  readMap (length (mapObjects σ)) id (view σ s) = traversalState s !!! id.
Proof.
  unfold readMap, view. simpl.
  by rewrite (list_lookup_total_middle _ [] _ _ eq_refl).
Qed.

Lemma readSlice_view σ s :
  readSlice (length (sliceVars σ)) (view σ s) = sorted s.
Proof.
  unfold readSlice, view. simpl.
  by rewrite (list_lookup_total_middle _ [] _ _ eq_refl).
Qed.

Lemma writeMap_view σ s id st :
  writeMap (length (mapObjects σ)) id st (view σ s)
  = view σ (setState id st s).
Proof.
  unfold writeMap, view. simpl. f_equal.
  by rewrite <-(Nat.add_0_r (length (mapObjects σ))), alter_app_r.
Qed.

Lemma appendSlice_view σ s node :
  appendSlice (length (sliceVars σ)) node (view σ s)
  = view σ (appendSorted node s).
Proof.
  unfold appendSlice, view. simpl. f_equal.
  by rewrite <-(Nat.add_0_r (length (sliceVars σ))), alter_app_r.
Qed.

(** The code in the store does what the code on [State] does, on the
    two objects of its addresses, and leaves every other object alone. *)
Lemma visitChildrenIn_view np σ
    (visitIn : V → Store V I → list V → outcomeIn V I E)
    (visit : V → State V I → list V → outcome V I E)
    node path indices s :
  (∀ c s1, visitIn c (view σ s1) path = viewOutcome σ (visit c s1 path)) →
  visitChildrenIn np visitIn node path indices (view σ s)
  = viewOutcome σ (visitChildren np visit node path indices s).
Proof.
  intros Hv. revert s. induction indices as [|i rest IH]; intros s; simpl;
    [done|].
  destruct (Child np node i) as [c|err]; [|done].
  change (view σ s) with
    (view σ (record (CallChild node i) (record (CallChildCount node) s))).
  rewrite Hv. destruct (visit c _ path) as [[[err|] s1]|]; simpl; auto.
Qed.

Lemma dfsVisitIn_view np σ fuel node s path :
  dfsVisitIn np fuel node (length (mapObjects σ)) (length (sliceVars σ))
    (view σ s) path
  = viewOutcome σ (dfsVisit np fuel node s path).
Proof.
  revert node s path.
  induction fuel as [|fuel IH]; intros node s path; simpl; [done|].
  rewrite readMap_view. destruct (traversalState s !!! ID np node); [|done..].
  rewrite writeMap_view.
  change (view σ (setState (ID np node) stateOpen s)) with
    (view σ (setState (ID np node) stateOpen
               (record (Enter node stateNew path) (record (CallID node) s)))).
  rewrite (visitChildrenIn_view np σ _ (dfsVisit np fuel))
    by (intros; apply IH).
  destruct (visitChildren _ _ _ _ _ _) as [[[err|] s1]|]; simpl; [done| |done].
  by rewrite writeMap_view, appendSlice_view.
Qed.

Lemma visitRootsIn_view np σ fuel graph s :
  visitRootsIn np fuel graph (length (mapObjects σ)) (length (sliceVars σ))
    (view σ s)
  = viewOutcome σ (visitRoots np fuel graph s).
Proof.
  revert s. induction graph as [|node rest IH]; intros s; simpl; [done|].
  rewrite dfsVisitIn_view.
  destruct (dfsVisit np fuel node s []) as [[[err|] s1]|]; simpl; auto.
Qed.

Lemma TopSortIn_view np fuel roots σ :
  TopSortIn fuel (Some np) roots σ
  = match visitRoots np fuel roots initState with
    | None => None
    | Some (Some err, s) => Some (None, Some err, view σ s)
    | Some (None, s) => Some (Some (sorted s), None, view σ s)
    end.
Proof.
  unfold TopSortIn, makeMap, makeSlice. simpl.
  change (mkStore (mapObjects σ ++ [∅]) (sliceVars σ ++ [[]]))
    with (view σ (initState (V:=V))).
  rewrite visitRootsIn_view.
  destruct (visitRoots np fuel roots initState) as [[[err|] s]|]; simpl;
    [done| |done].
  by rewrite readSlice_view.
Qed.

(** A successful visit appends what the specification's order says. *)
Lemma closedSorted_record np ev s :
  closedSorted np s → closedSorted np (record ev s).
Proof. done. Qed.

Lemma closedSorted_open np id s :
  closedSorted np s → traversalState s !!! id = stateNew →
  closedSorted np (setState id stateOpen s).
Proof.
  intros Hcl Hnew i. simpl. destruct (decide (i = id)) as [->|Hne].
  - rewrite lookup_total_insert_eq. split; [done|].
    intros Hin%Hcl. congruence.
  - rewrite lookup_total_insert_ne by done. apply Hcl.
Qed.

Lemma closedSorted_close np node s :
  closedSorted np s →
  closedSorted np (appendSorted node (setState (ID np node) stateClosed s)).
Proof.
  intros Hcl i. simpl. rewrite fmap_app, elem_of_app. simpl.
  rewrite list_elem_of_singleton.
  destruct (decide (i = ID np node)) as [->|Hne].
  - rewrite lookup_total_insert_eq. intuition congruence.
  - rewrite lookup_total_insert_ne by done. rewrite (Hcl i).
    intuition congruence.
Qed.

Lemma visitChildren_specOrder np fuel node path indices s s' :
  (∀ c s1 s1', closedSorted np s1 →
     dfsVisit np fuel c s1 path = Some (None, s1') →
     sorted s1' = specVisit fuel np c (sorted s1) ∧ closedSorted np s1') →
  closedSorted np s →
  visitChildren np (dfsVisit np fuel) node path indices s = Some (None, s') →
  sorted s'
  = foldl (λ acc c, specVisit fuel np c acc) (sorted s)
      (omap (λ i, match Child np node i with
                  | inl c => Some c
                  | inr _ => None
                  end) indices) ∧
  closedSorted np s'.
Proof.
  intros Hv. revert s. induction indices as [|i rest IH]; intros s Hcl; simpl.
  - by intros [= <-].
  - destruct (Child np node i) as [c|err]; [|done].
    destruct (dfsVisit np fuel c _ path) as [[[err|] s1]|] eqn:Hc;
      [done| |done].
    apply Hv in Hc as [Hs1 Hcl1]; [|done]. simpl in Hs1.
    intros Ho. apply IH in Ho as [Hs' Hcl']; [|done].
    by rewrite Hs', Hs1.
Qed.

Lemma dfsVisit_specOrder np fuel node s path s' :
  closedSorted np s →
  dfsVisit np fuel node s path = Some (None, s') →
  sorted s' = specVisit fuel np node (sorted s) ∧ closedSorted np s'.
Proof.
  revert node s path s'.
  induction fuel as [|fuel IH]; intros node s path s' Hcl; simpl; [done|].
  destruct (traversalState s !!! ID np node) eqn:Hst.
  - destruct (visitChildren _ _ _ _ _ _) as [[[err|] s1]|] eqn:Hc;
      [done| |done].
    intros [= <-].
    apply visitChildren_specOrder in Hc as [Hs1 Hcl1].
    + split; [|by apply closedSorted_close].
      simpl in *. rewrite decide_False; [by rewrite Hs1|].
      rewrite <-(Hcl (ID np node)). congruence.
    + intros c s2 s2' Hcl2. by apply IH.
    + by apply closedSorted_open.
  - done.
  - intros [= <-]. split; [|done]. simpl.
    rewrite decide_True; [done|]. by apply Hcl.
Qed.

Lemma visitRoots_specOrder np fuel graph s s' :
  closedSorted np s →
  visitRoots np fuel graph s = Some (None, s') →
  sorted s' = foldl (λ acc r, specVisit fuel np r acc) (sorted s) graph.
Proof.
  revert s. induction graph as [|node rest IH]; intros s Hcl; simpl.
  - by intros [= <-].
  - destruct (dfsVisit np fuel node s []) as [[[err|] s1]|] eqn:Hd;
      [done| |done].
    apply dfsVisit_specOrder in Hd as [Hs1 Hcl1]; [|done].
    intros Ho. apply IH in Ho; [|done]. by rewrite Ho, Hs1.
Qed.

Lemma closedSorted_init np : closedSorted np (initState (V:=V)).
Proof.
  intros i. simpl. rewrite lookup_total_empty. split; [done|].
  by intros ?%elem_of_nil.
Qed.

(** C7. Two invocations of the sort give the same outcome. The map and
    the slice of an invocation are objects it allocates itself: when an
    invocation returns a slice and an error in some store, an invocation
    with a provider that agrees with the first on every argument returns
    the same slice and the same error in every store, also the store the
    first invocation left, under every depth bound at least as large; it
    leaves the objects it finds in that store as they are; and it returns
    nothing else under any bound. A slice that is returned is the order of
    the specification: the children of a vertex resolved before the vertex,
    in the order of their indices, the roots from left to right. *)
Theorem TopSort_invocations_agree np1 np2 roots fuel1 σ1 res err σ1' :
  agree np1 np2 →
  TopSortIn fuel1 (Some np1) roots σ1 = Some (res, err, σ1') →
  (∀ σ2 fuel2, (fuel1 ≤ fuel2)%nat →
     ∃ σ2', TopSortIn fuel2 (Some np2) roots σ2 = Some (res, err, σ2') ∧
            mapObjects σ2 `prefix_of` mapObjects σ2' ∧
            sliceVars σ2 `prefix_of` sliceVars σ2') ∧
  (∀ σ2 fuel2 res2 err2 σ2',
     TopSortIn fuel2 (Some np2) roots σ2 = Some (res2, err2, σ2') →
     res2 = res ∧ err2 = err) ∧
  (∀ l, res = Some l → l = specPostorder fuel1 np1 roots).
Proof.
  intros Hag. rewrite TopSortIn_view.
  destruct (visitRoots np1 fuel1 roots initState) as [[r s]|] eqn:Hv; [|done].
  intros Hts.
  assert (∀ fuel2, (fuel1 ≤ fuel2)%nat →
            visitRoots np2 fuel2 roots initState = Some (r, s)) as Hsame.
  { intros fuel2 Hle. rewrite <-(visitRoots_agree np1 np2 _ _ _ Hag).
    by apply (visitRoots_fuel_mono _ fuel1). }
  split_and!.
  - intros σ2 fuel2 Hle. rewrite TopSortIn_view, (Hsame fuel2 Hle).
    exists (view σ2 s). unfold view. simpl.
    destruct r as [e|]; injection Hts as <- <- _;
      (split_and!; [done|by apply prefix_app_r..]).
  - intros σ2 fuel2 res2 err2 σ2'. rewrite TopSortIn_view.
    destruct (visitRoots np2 fuel2 roots initState) as [[r2 s2]|] eqn:Hv2;
      [|done].
    apply (visitRoots_fuel_mono _ _ (fuel1 `max` fuel2)) in Hv2; [|lia].
    rewrite Hsame in Hv2 by lia. injection Hv2 as <- <-.
    destruct r as [e|]; injection Hts as <- <- _; by intros [= <- <- _].
  - intros l ->. destruct r as [e|]; [done|]. injection Hts as <- _ _.
    exact (visitRoots_specOrder np1 _ _ initState _
             (closedSorted_init np1) Hv).
Qed.

End Invocations.

(** ** The sample graphs *)

Section SampleGraphs.

Import Samples.

Lemma listProvider_edge adj u c :
  edge (listProvider adj) u c ↔ c ∈ adj u.
Proof.
  split.
  - intros (i & Hi & Hc). simpl in Hc.
    destruct (adj u !! Z.to_nat i) as [c'|] eqn:Hl; [|done].
    injection Hc as ->. by eapply list_elem_of_lookup_2.
  - intros [k Hk]%list_elem_of_lookup. exists (Z.of_nat k). simpl.
    apply lookup_lt_Some in Hk as Hlt. split; [lia|].
    by rewrite Nat2Z.id, Hk.
Qed.

Lemma listProvider_resolvable adj roots :
  resolvable (listProvider adj) roots.
Proof.
  intros v i _ Hi. simpl in *.
  destruct (lookup_lt_is_Some_2 (adj v) (Z.to_nat i)) as [c Hc]; [lia|].
  exists c. by rewrite Hc.
Qed.

Lemma listProvider_consistent adj roots :
  consistent (listProvider adj) roots.
Proof. by intros u v _ _ Hid. Qed.

Lemma listProvider_covers adj roots n :
  (∀ r, r ∈ roots → (r < n)%nat) →
  (∀ u c, c ∈ adj u → (c < n)%nat) →
  covers (listProvider adj) roots (ids n).
Proof.
  intros Hroots Hadj v Hv. simpl. unfold ids.
  apply elem_of_list_to_set, elem_of_seq. split; [lia|]. simpl.
  destruct Hv as [r Hr|u c _ Hedge]; [by auto|].
  apply listProvider_edge in Hedge. by eauto.
Qed.

Lemma listProvider_acyclic adj roots :
  (∀ u c, c ∈ adj u → (u < c)%nat) →
  acyclic (listProvider adj) roots.
Proof.
  intros Hadj v _ Htc.
  assert (∀ a b, tc (edge (listProvider adj)) a b → (a < b)%nat) as Hlt.
  { induction 1 as [a b Hab|a x b Hax _ IH].
    - by apply Hadj, listProvider_edge.
    - apply listProvider_edge, Hadj in Hax. lia. }
  apply Hlt in Htc. lia.
Qed.

Lemma diamond_children u c :
  c ∈ diamond u → (u < c)%nat ∧ (c < 4)%nat.
Proof.
  destruct u as [|[|[|u]]]; simpl; intros Hc;
    repeat (apply elem_of_cons in Hc as [->|Hc]; [lia|]);
    by apply elem_of_nil in Hc.
Qed.

Lemma triangle_children u c : c ∈ triangle u → (c < 3)%nat.
Proof.
  destruct u as [|[|[|u]]]; simpl; intros Hc;
    repeat (apply elem_of_cons in Hc as [->|Hc]; [lia|]);
    by apply elem_of_nil in Hc.
Qed.

Lemma lasso_children u c : c ∈ lasso u → (c < 2)%nat.
Proof.
  destruct u as [|[|u]]; simpl; intros Hc;
    repeat (apply elem_of_cons in Hc as [->|Hc]; [lia|]);
    by apply elem_of_nil in Hc.
Qed.

Lemma diamond_covers : covers (listProvider diamond) [0; 0; 1]%nat (ids 4).
Proof.
  apply listProvider_covers.
  - intros r Hr.
    repeat (apply elem_of_cons in Hr as [->|Hr]; [lia|]).
    by apply elem_of_nil in Hr.
  - intros u c Hc. apply diamond_children in Hc. lia.
Qed.

Lemma diamond_acyclic roots : acyclic (listProvider diamond) roots.
Proof.
  apply listProvider_acyclic. intros u c Hc.
  apply diamond_children in Hc. lia.
Qed.

Lemma triangle_covers : covers (listProvider triangle) [0%nat] (ids 3).
Proof.
  apply listProvider_covers.
  - intros r ->%list_elem_of_singleton. lia.
  - apply triangle_children.
Qed.

Lemma lasso_covers : covers (listProvider lasso) [0%nat] (ids 2).
Proof.
  apply listProvider_covers.
  - intros r ->%list_elem_of_singleton. lia.
  - apply lasso_children.
Qed.

Lemma diamondTable_agree :
  agree (listProvider diamond) (listProvider diamondTable).
Proof.
  assert (∀ v, diamond v = diamondTable v) as Heq.
  { intros v. by destruct v as [|[|[|[|v]]]]. }
  split_and!; [done| |]; intros v; simpl; by rewrite Heq.
Qed.

Lemma listProvider_no_CycleError adj v i p :
  Child (listProvider adj) v i ≠ inr (CycleError p).
Proof. simpl. by destruct (adj v !! Z.to_nat i). Qed.

Lemma TopSort_children_first_witness :
  covers (listProvider diamond) [0; 0; 1]%nat (ids 4) ∧
  resolvable (listProvider diamond) [0; 0; 1]%nat ∧
  consistent (listProvider diamond) [0; 0; 1]%nat ∧
  acyclic (listProvider diamond) [0; 0; 1]%nat ∧
  (size (ids 4) < 5)%nat ∧
  ∃ res tr,
    TopSort 5 (Some (listProvider diamond)) [0; 0; 1]%nat
    = Some (Some res, None, tr) ∧
    (∀ parent child,
       reachable (listProvider diamond) [0; 0; 1]%nat parent →
       edge (listProvider diamond) parent child →
       ∃ i j, res !! i = Some parent ∧ res !! j = Some child ∧
              (j ≤ i)%nat) ∧
    (∀ i j parent child,
       res !! i = Some parent → res !! j = Some child →
       edge (listProvider diamond) parent child → (j ≤ i)%nat).
Proof.
  assert (size (ids 4) < 5)%nat as Hsize by (vm_compute; lia).
  split_and!;
    [apply diamond_covers | apply listProvider_resolvable
    | apply listProvider_consistent | apply diamond_acyclic | exact Hsize |].
  apply (TopSort_children_first (listProvider diamond) _ (ids 4) 5);
    [apply diamond_covers | apply listProvider_resolvable
    | apply listProvider_consistent | apply diamond_acyclic | exact Hsize].
Defined.

Lemma TopSort_exactly_reachable_witness :
  covers (listProvider diamond) [0; 0; 1]%nat (ids 4) ∧
  resolvable (listProvider diamond) [0; 0; 1]%nat ∧
  consistent (listProvider diamond) [0; 0; 1]%nat ∧
  acyclic (listProvider diamond) [0; 0; 1]%nat ∧
  (size (ids 4) < 5)%nat ∧
  ∃ res tr,
    TopSort 5 (Some (listProvider diamond)) [0; 0; 1]%nat
    = Some (Some res, None, tr) ∧
    NoDup res ∧
    ∀ v, v ∈ res ↔ reachable (listProvider diamond) [0; 0; 1]%nat v.
Proof.
  assert (size (ids 4) < 5)%nat as Hsize by (vm_compute; lia).
  split_and!;
    [apply diamond_covers | apply listProvider_resolvable
    | apply listProvider_consistent | apply diamond_acyclic | exact Hsize |].
  apply (TopSort_exactly_reachable (listProvider diamond) _ (ids 4) 5);
    [apply diamond_covers | apply listProvider_resolvable
    | apply listProvider_consistent | apply diamond_acyclic | exact Hsize].
Defined.

Lemma TopSort_cycle_reported_witness :
  (∃ res err tr,
     TopSort 5 (Some (listProvider triangle)) [0%nat] = Some (res, err, tr) ∧
     Enter 0%nat stateOpen [0; 1; 2]%nat ∈ tr ∧
     res = None ∧ err = Some (CycleError ([0; 1; 2] ++ [0])%nat) ∧
     ∃ tr', tr = tr' ++ [Enter 0%nat stateOpen [0; 1; 2]%nat]) ∧
  (covers (listProvider lasso) [0%nat] (ids 2) ∧
   resolvable (listProvider lasso) [0%nat] ∧
   consistent (listProvider lasso) [0%nat] ∧
   reachable (listProvider lasso) [0%nat] 1%nat ∧
   edge (listProvider lasso) 1%nat 1%nat ∧
   (size (ids 2) < 3)%nat ∧
   ∃ path tr,
     TopSort 3 (Some (listProvider lasso)) [0%nat]
     = Some (None, Some (CycleError path), tr)) ∧
  (∃ tr,
     TopSort 4 (Some (listProvider triangle)) [0; 3]%nat
     = Some (None, Some (CycleError [0; 1; 2; 0]%nat), tr)).
Proof.
  destruct (TopSort_cycle_reported (V:=nat) (I:=nat) (E:=Z))
    as (Hopen & Hself & Htri).
  split; [|split].
  - eexists _, _, _. split; [vm_compute; reflexivity|].
    split; [in_list|].
    apply (Hopen (listProvider triangle) 5%nat [0%nat]);
      [vm_compute; reflexivity | in_list].
  - assert (size (ids 2) < 3)%nat as Hsize by (vm_compute; lia).
    assert (edge (listProvider lasso) 1%nat 1%nat) as Hedge.
    { apply listProvider_edge. simpl. in_list. }
    assert (reachable (listProvider lasso) [0%nat] 1%nat) as Hreach.
    { eapply reachable_child; [apply reachable_root; in_list|].
      apply listProvider_edge. simpl. in_list. }
    split_and!;
      [apply lasso_covers | apply listProvider_resolvable
      | apply listProvider_consistent | exact Hreach | exact Hedge
      | exact Hsize |].
    apply (Hself (listProvider lasso) [0%nat] (ids 2) 3%nat 1%nat);
      [apply lasso_covers | apply listProvider_resolvable
      | apply listProvider_consistent | exact Hreach | exact Hedge
      | exact Hsize].
  - apply (Htri (listProvider triangle) 4%nat 0%nat 1%nat 2%nat [3%nat]);
      [done..|lia].
Defined.

Lemma TopSort_failure_aborts_witness :
  ∃ err tr,
    TopSort 5 (Some broken) [5; 0]%nat = Some (None, Some err, tr) ∧
    (None (A:=list nat) = None ∧
     TopSort 5 (Some broken) ([5; 0] ++ [1])%nat
     = Some (None, Some err, tr)).
Proof.
  eexists _, _. split; [vm_compute; reflexivity|].
  apply (TopSort_failure_aborts 5 (Some broken) [5; 0]%nat [1%nat]).
  vm_compute. reflexivity.
Defined.

Lemma TopSort_lookup_failure_witness :
  ∃ res err tr,
    TopSort 5 (Some broken) [5; 0; 1]%nat = Some (res, err, tr) ∧
    CallChild 0%nat 1 ∈ tr ∧
    Child broken 0%nat 1 = inr (CallerError "broken reference") ∧
    (res = None ∧ err = Some (CallerError "broken reference") ∧
     ∃ tr', tr = tr' ++ [CallChild 0%nat 1]).
Proof.
  eexists _, _, _. split; [vm_compute; reflexivity|].
  split; [in_list|]. split; [reflexivity|].
  apply (TopSort_lookup_failure 5 broken [5; 0; 1]%nat);
    [vm_compute; reflexivity | in_list | reflexivity].
Defined.

Lemma TopSort_invocations_agree_witness :
  agree (listProvider diamond) (listProvider diamondTable) ∧
  ∃ σ1',
    TopSortIn 5 (Some (listProvider diamond)) [0; 0; 1]%nat (mkStore [] [])
    = Some (Some [3; 1; 2; 0]%nat, None, σ1') ∧
    (∀ σ2 fuel2, (5 ≤ fuel2)%nat →
       ∃ σ2',
         TopSortIn fuel2 (Some (listProvider diamondTable)) [0; 0; 1]%nat σ2
         = Some (Some [3; 1; 2; 0]%nat, None, σ2') ∧
         mapObjects σ2 `prefix_of` mapObjects σ2' ∧
         sliceVars σ2 `prefix_of` sliceVars σ2') ∧
    (∀ σ2 fuel2 res2 err2 σ2',
       TopSortIn fuel2 (Some (listProvider diamondTable)) [0; 0; 1]%nat σ2
       = Some (res2, err2, σ2') →
       res2 = Some [3; 1; 2; 0]%nat ∧ err2 = None) ∧
    (∀ l, Some [3; 1; 2; 0]%nat = Some l →
          l = specPostorder 5 (listProvider diamond) [0; 0; 1]%nat).
Proof.
  split; [apply diamondTable_agree|].
  eexists. split; [vm_compute; reflexivity|].
  eapply (TopSort_invocations_agree (listProvider diamond)
            (listProvider diamondTable) [0; 0; 1]%nat 5 (mkStore [] []));
    [apply diamondTable_agree | vm_compute; reflexivity].
Defined.

Lemma TopSort_CycleError_path_witness :
  ∃ tr,
    TopSort 5 (Some (listProvider triangle)) [0%nat]
    = Some (None, Some (CycleError [0; 1; 2; 0]%nat), tr) ∧
    (∀ v i, Child (listProvider triangle) v i
            ≠ inr (CycleError [0; 1; 2; 0]%nat)) ∧
    ∃ pre node w,
      [0; 1; 2; 0]%nat = pre ++ [node] ∧ w ∈ pre ∧ w = node ∧
      chain (listProvider triangle) [0; 1; 2; 0]%nat ∧
      ∃ r, r ∈ [0%nat] ∧ head [0; 1; 2; 0]%nat = Some r.
Proof.
  eexists. split; [vm_compute; reflexivity|].
  split; [intros v i; apply listProvider_no_CycleError|].
  eapply (TopSort_CycleError_path (listProvider triangle) 5 [0%nat] None);
    [vm_compute; reflexivity|].
  intros v i. apply listProvider_no_CycleError.
Defined.

Lemma TopSort_terminates_witness :
  covers (listProvider triangle) [0%nat] (ids 3) ∧
  (size (ids 3) < 4)%nat ∧
  ∃ res err tr,
    TopSort 4 (Some (listProvider triangle)) [0%nat] = Some (res, err, tr) ∧
    NoDup (opened (listProvider triangle) tr) ∧
    ∀ B : nat,
      (∀ v, reachable (listProvider triangle) [0%nat] v →
            ChildCount (listProvider triangle) v ≤ Z.of_nat B) →
      (entries tr ≤ length [0%nat] + B * size (ids 3))%nat.
Proof.
  assert (size (ids 3) < 4)%nat as Hsize by (vm_compute; lia).
  split_and!; [apply triangle_covers | exact Hsize |].
  apply (TopSort_terminates (listProvider triangle) [0%nat] (ids 3) 4);
    [apply triangle_covers | exact Hsize].
Defined.

Lemma listProvider_bound adj roots n v :
  (∀ r, r ∈ roots → (r < n)%nat) →
  (∀ u c, c ∈ adj u → (c < n)%nat) →
  reachable (listProvider adj) roots v → (v < n)%nat.
Proof.
  intros Hroots Hadj [r Hr|u c _ Hedge]; [by auto|].
  apply listProvider_edge in Hedge. by eauto.
Qed.

Lemma diamondPlus_agreeOn :
  agreeOn (listProvider diamond) (listProvider diamondPlus) [0; 0; 1]%nat.
Proof.
  intros v Hv. apply (listProvider_bound _ _ 4) in Hv.
  - by destruct v as [|[|[|[|v]]]]; [..|lia].
  - intros r Hr.
    repeat (apply elem_of_cons in Hr as [->|Hr]; [lia|]).
    by apply elem_of_nil in Hr.
  - intros u c Hc. apply diamond_children in Hc. lia.
Qed.

Lemma TopSort_success_sound_witness :
  ∃ res tr,
    TopSort 5 (Some (listProvider diamond)) [0; 0; 1]%nat
    = Some (Some res, None, tr) ∧
    NoDup (ID (listProvider diamond) <$> res) ∧
    (∀ v, v ∈ res → reachable (listProvider diamond) [0; 0; 1]%nat v) ∧
    (∀ r, r ∈ [0; 0; 1]%nat →
          ID (listProvider diamond) r ∈ ID (listProvider diamond) <$> res) ∧
    (∀ i parent c,
       res !! i = Some parent → edge (listProvider diamond) parent c →
       ∃ j, (j < i)%nat ∧
            (ID (listProvider diamond) <$> res) !! j
            = Some (ID (listProvider diamond) c)).
Proof.
  eexists _, _. split; [vm_compute; reflexivity|].
  eapply (TopSort_success_sound (listProvider diamond) [0; 0; 1]%nat 5).
  vm_compute. reflexivity.
Defined.

Lemma TopSort_success_acyclic_witness :
  ∃ res tr,
    TopSort 5 (Some (listProvider diamond)) [0; 0; 1]%nat
    = Some (Some res, None, tr) ∧
    consistent (listProvider diamond) [0; 0; 1]%nat ∧
    (acyclic (listProvider diamond) [0; 0; 1]%nat ∧
     ∀ v, v ∈ res ↔ reachable (listProvider diamond) [0; 0; 1]%nat v).
Proof.
  eexists _, _. split; [vm_compute; reflexivity|].
  split; [apply listProvider_consistent|].
  eapply (TopSort_success_acyclic (listProvider diamond) [0; 0; 1]%nat 5);
    [vm_compute; reflexivity|apply listProvider_consistent].
Defined.

Lemma TopSort_descendants_first_witness :
  ∃ res tr,
    TopSort 5 (Some (listProvider diamond)) [0; 0; 1]%nat
    = Some (Some res, None, tr) ∧
    consistent (listProvider diamond) [0; 0; 1]%nat ∧
    res !! 3%nat = Some 0%nat ∧
    tc (edge (listProvider diamond)) 0%nat 3%nat ∧
    ∃ j, (j < 3)%nat ∧ res !! j = Some 3%nat.
Proof.
  assert (tc (edge (listProvider diamond)) 0%nat 3%nat) as Htc.
  { apply (tc_l _ _ 1%nat); [|apply tc_once];
      apply listProvider_edge; simpl; in_list. }
  eexists _, _. split; [vm_compute; reflexivity|].
  split; [apply listProvider_consistent|]. split; [reflexivity|].
  split; [exact Htc|].
  eapply (TopSort_descendants_first (listProvider diamond) [0; 0; 1]%nat 5
            _ _ 3%nat 0%nat 3%nat);
    [vm_compute; reflexivity|apply listProvider_consistent|reflexivity
    |exact Htc].
Defined.

Lemma TopSort_decides_cycles_witness :
  covers (listProvider lasso) [0%nat] (ids 2) ∧
  resolvable (listProvider lasso) [0%nat] ∧
  consistent (listProvider lasso) [0%nat] ∧
  (size (ids 2) < 3)%nat ∧
  ((∃ p tr, TopSort 3 (Some (listProvider lasso)) [0%nat]
            = Some (None, Some (CycleError p), tr))
   ↔ ∃ v, reachable (listProvider lasso) [0%nat] v ∧
          tc (edge (listProvider lasso)) v v) ∧
  ((∃ res tr, TopSort 3 (Some (listProvider lasso)) [0%nat]
              = Some (Some res, None, tr))
   ↔ acyclic (listProvider lasso) [0%nat]).
Proof.
  assert (size (ids 2) < 3)%nat as Hsize by (vm_compute; lia).
  split_and!;
    [apply lasso_covers | apply listProvider_resolvable
    | apply listProvider_consistent | exact Hsize | |];
    apply (TopSort_decides_cycles (listProvider lasso) [0%nat] (ids 2) 3);
    first [apply lasso_covers | apply listProvider_resolvable
          | apply listProvider_consistent | exact Hsize].
Defined.

Lemma TopSort_failure_origin_witness :
  ∃ res err tr,
    TopSort 5 (Some broken) [5; 0; 1]%nat = Some (res, Some err, tr) ∧
    ((∃ node path,
        last tr = Some (Enter node stateOpen path) ∧
        err = CycleError (path ++ [node]) ∧
        Error (λ c : string, c) err = "not a dag") ∨
     (∃ v i, last tr = Some (CallChild v i) ∧ Child broken v i = inr err)).
Proof.
  eexists _, _, _. split; [vm_compute; reflexivity|].
  eapply (TopSort_failure_origin broken [5; 0; 1]%nat 5).
  vm_compute. reflexivity.
Defined.

Lemma TopSort_more_roots_witness :
  ∃ res tr res' err' tr',
    TopSort 5 (Some (listProvider diamond)) [1%nat]
    = Some (Some res, None, tr) ∧
    TopSort 5 (Some (listProvider diamond)) ([1] ++ [0; 2])%nat
    = Some (res', err', tr') ∧
    (tr `prefix_of` tr' ∧ ∀ l, res' = Some l → res `prefix_of` l).
Proof.
  eexists _, _, _, _, _. split; [vm_compute; reflexivity|].
  split; [vm_compute; reflexivity|].
  eapply (TopSort_more_roots (listProvider diamond) [1%nat] [0; 2]%nat 5);
    vm_compute; reflexivity.
Defined.

Lemma TopSort_known_roots_witness :
  ∃ res tr,
    TopSort 5 (Some (listProvider diamond)) [0%nat]
    = Some (Some res, None, tr) ∧
    (∀ r, r ∈ [3; 1]%nat →
          ID (listProvider diamond) r ∈ ID (listProvider diamond) <$> res) ∧
    TopSort 5 (Some (listProvider diamond)) ([0] ++ [3; 1])%nat
    = Some (Some res, None,
            tr ++ flat_map (λ r, [CallID r; Enter r stateClosed []])
                    [3; 1]%nat).
Proof.
  eexists _, _. split; [vm_compute; reflexivity|].
  assert (∀ r, r ∈ [3; 1]%nat →
            ID (listProvider diamond) r
            ∈ ID (listProvider diamond) <$> [3; 1; 2; 0]%nat) as Hknown.
  { intros r Hr.
    repeat (apply elem_of_cons in Hr as [->|Hr]; [simpl; in_list|]).
    by apply elem_of_nil in Hr. }
  split; [exact Hknown|].
  apply (TopSort_known_roots (listProvider diamond) [0%nat] [3; 1]%nat 5);
    [vm_compute; reflexivity|exact Hknown].
Defined.

Lemma TopSort_first_root_witness :
  ∃ res tr,
    TopSort 5 (Some (listProvider diamond)) (1 :: [0])%nat
    = Some (Some res, None, tr) ∧
    ∃ l rest, res = l ++ 1%nat :: rest ∧
              ∀ v, v ∈ l → reachable (listProvider diamond) [1%nat] v.
Proof.
  eexists _, _. split; [vm_compute; reflexivity|].
  eapply (TopSort_first_root (listProvider diamond) 1%nat [0%nat] 5).
  vm_compute. reflexivity.
Defined.

Lemma TopSort_keeps_contract_witness :
  ∃ res err tr,
    TopSort 5 (Some broken) [5; 0; 1]%nat = Some (res, err, tr) ∧
    Forall (inContract broken [5; 0; 1]%nat) tr.
Proof.
  eexists _, _, _. split; [vm_compute; reflexivity|].
  eapply (TopSort_keeps_contract broken [5; 0; 1]%nat 5).
  vm_compute. reflexivity.
Defined.

Lemma TopSort_depth_bound_witness :
  covers (listProvider triangle) [0%nat] (ids 3) ∧
  ∃ res err tr,
    TopSort 5 (Some (listProvider triangle)) [0%nat] = Some (res, err, tr) ∧
    Enter 0%nat stateOpen [0; 1; 2]%nat ∈ tr ∧
    ((length [0; 1; 2]%nat ≤ size (ids 3))%nat ∧
     (stateOpen = stateNew → length [0; 1; 2]%nat < size (ids 3))%nat).
Proof.
  split; [apply triangle_covers|].
  eexists _, _, _. split; [vm_compute; reflexivity|].
  split; [in_list|].
  eapply (TopSort_depth_bound (listProvider triangle) [0%nat] (ids 3) 5);
    [apply triangle_covers|vm_compute; reflexivity|in_list].
Defined.

Lemma TopSort_CycleError_lasso_witness :
  ∃ tr,
    TopSort 3 (Some (listProvider lasso)) [0%nat]
    = Some (None, Some (CycleError [0; 1; 1]%nat), tr) ∧
    (∀ v i, Child (listProvider lasso) v i
            ≠ inr (CycleError [0; 1; 1]%nat)) ∧
    ∃ p1 w p2 node,
      [0; 1; 1]%nat = p1 ++ w :: p2 ++ [node] ∧ w = node ∧
      NoDup (ID (listProvider lasso) <$> p1 ++ w :: p2).
Proof.
  eexists. split; [vm_compute; reflexivity|].
  split; [intros v i; apply listProvider_no_CycleError|].
  eapply (TopSort_CycleError_lasso (listProvider lasso) [0%nat] 3 None);
    [vm_compute; reflexivity|].
  intros v i. apply listProvider_no_CycleError.
Defined.

Lemma TopSort_lookups_once_witness :
  ∃ res err tr,
    TopSort 5 (Some (listProvider diamond)) [0; 0; 1]%nat
    = Some (res, err, tr) ∧
    NoDup (lookups tr).
Proof.
  eexists _, _, _. split; [vm_compute; reflexivity|].
  eapply (TopSort_lookups_once (listProvider diamond) [0; 0; 1]%nat 5).
  vm_compute. reflexivity.
Defined.

Lemma TopSort_roots_order_witness :
  consistent (listProvider diamond) [2; 0]%nat ∧
  (∀ r, r ∈ [2; 0]%nat ↔ r ∈ [0; 2; 0]%nat) ∧
  ∃ tr1 tr2,
    TopSort 5 (Some (listProvider diamond)) [2; 0]%nat
    = Some (Some [3; 2; 1; 0]%nat, None, tr1) ∧
    TopSort 7 (Some (listProvider diamond)) [0; 2; 0]%nat
    = Some (Some [3; 1; 2; 0]%nat, None, tr2) ∧
    [3; 2; 1; 0]%nat ≡ₚ [3; 1; 2; 0]%nat.
Proof.
  assert (∀ r, r ∈ [2; 0]%nat ↔ r ∈ [0; 2; 0]%nat) as Hsame.
  { intros r. rewrite !elem_of_cons, !elem_of_nil. tauto. }
  split; [apply listProvider_consistent|]. split; [exact Hsame|].
  eexists _, _.
  split; [vm_compute; reflexivity|]. split; [vm_compute; reflexivity|].
  eapply (TopSort_roots_order (listProvider diamond) [2; 0]%nat
            [0; 2; 0]%nat 5 7);
    [apply listProvider_consistent|exact Hsame
    |vm_compute; reflexivity|vm_compute; reflexivity].
Defined.

Lemma TopSort_local_witness :
  agreeOn (listProvider diamond) (listProvider diamondPlus) [0; 0; 1]%nat ∧
  TopSort 5 (Some (listProvider diamond)) [0; 0; 1]%nat
  = TopSort 5 (Some (listProvider diamondPlus)) [0; 0; 1]%nat.
Proof.
  split; [apply diamondPlus_agreeOn|].
  apply (TopSort_local (listProvider diamond) (listProvider diamondPlus)
           [0; 0; 1]%nat 5).
  apply diamondPlus_agreeOn.
Defined.

End SampleGraphs.

Example diamond_sorted :
  TopSort 5 (Some (Samples.listProvider Samples.diamond)) [0%nat]
  = Some (Some [3; 1; 2; 0]%nat, None,
          [CallID 0%nat; Enter 0%nat stateNew [];
           CallChildCount 0%nat; CallChild 0%nat 0;
           CallID 1%nat; Enter 1%nat stateNew [0%nat];
           CallChildCount 1%nat; CallChild 1%nat 0;
           CallID 3%nat; Enter 3%nat stateNew [0; 1]%nat;
           CallChildCount 3%nat; CallChildCount 1%nat;
           CallChildCount 0%nat; CallChild 0%nat 1;
           CallID 2%nat; Enter 2%nat stateNew [0%nat];
           CallChildCount 2%nat; CallChild 2%nat 0;
           CallID 3%nat; Enter 3%nat stateClosed [0; 2]%nat;
           CallChildCount 2%nat; CallChildCount 0%nat]).
Proof. vm_compute. reflexivity. Qed.

Example triangle_cycle :
  fst <$> TopSort 5 (Some (Samples.listProvider Samples.triangle)) [0%nat]
  = Some (None, Some (CycleError [0; 1; 2; 0]%nat)).
Proof. vm_compute. reflexivity. Qed.

Example broken_lookup :
  fst <$> TopSort 5 (Some Samples.broken) [5; 0; 1]%nat
  = Some (None, Some (CallerError "broken reference")).
Proof. vm_compute. reflexivity. Qed.

Example diamond_specPostorder :
  specPostorder 5 (Samples.listProvider Samples.diamond) [0; 0; 1]%nat
  = [3; 1; 2; 0]%nat.
Proof. vm_compute. reflexivity. Qed.

Example diamond_second_invocation :
  ∃ σ1 σ2,
    TopSortIn 5 (Some (Samples.listProvider Samples.diamond)) [0%nat]
      (mkStore [] [])
    = Some (Some [3; 1; 2; 0]%nat, None, σ1) ∧
    TopSortIn 5 (Some (Samples.listProvider Samples.diamond)) [0%nat] σ1
    = Some (Some [3; 1; 2; 0]%nat, None, σ2) ∧
    sliceVars σ2 = [[3; 1; 2; 0]; [3; 1; 2; 0]]%nat.
Proof.
  eexists _, _. split; [vm_compute; reflexivity|].
  split; vm_compute; reflexivity.
Qed.
